(** * dzver: the version aggregation and refresh core of [app.py]

    A shallow embedding of the three source fetchers, the aggregator
    [get_versions_async], the refresh loop [refresh_versions] and the two
    Flask handlers, followed by the properties of the specification that
    were checked against them.

    Conventions of the embedding.
    - Text is a Rocq [string]: its characters are the code points 0 to 255,
      ASCII and Latin-1, and [str.isdigit], [str.lower] and [int] are the
      Python functions on that range, [int] with CPython's default limit of
      4300 digits.
    - A value decoded from JSON is a [pyval]; floating-point numbers are
      left out, none of the fetchers computes with them.
    - A Python exception is a constructor of [exn]; a computation is a
      [Py]: the log lines and pauses it produced, and the [result] it ended
      with, a value or the exception that left it.
    - The network is a function from the request a client sends to the
      reply it gets; one such function stands for one refresh cycle. *)

From Stdlib Require Import String Ascii List ZArith NArith Lia Bool Arith Permutation.
Import ListNotations.

Local Open Scope list_scope.
Local Open Scope string_scope.

(** ** Characters and strings *)

(** A decimal digit, [0] to [9]: the digits that [int] reads. *)
Definition is_decimal (c : ascii) : bool :=
  let n := N_of_ascii c in ((48 <=? n) && (n <=? 57))%N.

(** [c.isdigit()]: the decimal digits, and the superscripts two, three and
    one (code points 178, 179 and 185), which are digits to [str.isdigit]
    though [int] does not read them. *)
Definition isdigit (c : ascii) : bool :=
  let n := N_of_ascii c in
  (is_decimal c || (n =? 178) || (n =? 179) || (n =? 185))%N.

(** [c.lower()]: the letters [A] to [Z], and the capital letters of
    Latin-1 (code points 192 to 222, the multiplication sign 215 apart). *)
Definition lower_char (c : ascii) : ascii :=
  let n := N_of_ascii c in
  if ((65 <=? n) && (n <=? 90))%N then ascii_of_N (n + 32)
  else if ((192 <=? n) && (n <=? 222) && negb (n =? 215))%N then ascii_of_N (n + 32)
  else c.

(** [s.lower()] *)
Fixpoint lower (s : string) : string :=
  match s with
  | EmptyString => EmptyString
  | String c s' => String (lower_char c) (lower s')
  end.

(** [''.join(c for c in s if p(c))] *)
Fixpoint filter_chars (p : ascii -> bool) (s : string) : string :=
  match s with
  | EmptyString => EmptyString
  | String c s' => if p c then String c (filter_chars p s') else filter_chars p s'
  end.

(** [s.split(sep)] for a one-character separator: never the empty list. *)
Fixpoint split (sep : ascii) (s : string) : list string :=
  match s with
  | EmptyString => [EmptyString]
  | String c s' =>
      if Ascii.eqb c sep then EmptyString :: split sep s'
      else match split sep s' with
           | part :: parts => String c part :: parts
           | [] => [String c EmptyString]
           end
  end.

(** [needle in hay] *)
Fixpoint contains (needle hay : string) : bool :=
  String.prefix needle hay
  || match hay with
     | EmptyString => false
     | String _ hay' => contains needle hay'
     end.

(** [s.replace(c, '')] for a one-character [c]. *)
Definition remove_char (c : ascii) (s : string) : string :=
  filter_chars (fun d => negb (Ascii.eqb d c)) s.

(** [head, _, _ = s.partition(sep)]: the text before the first [sep], the
    whole of [s] when [sep] does not occur. *)
Fixpoint partition_head (sep : ascii) (s : string) : string :=
  match s with
  | EmptyString => EmptyString
  | String c s' => if Ascii.eqb c sep then EmptyString else String c (partition_head sep s')
  end.

(** The number that a string of decimal digits writes, most significant
    digit first. *)
Fixpoint int_of_digits_from (acc : N) (digits : string) : N :=
  match digits with
  | EmptyString => acc
  | String c rest => int_of_digits_from (10 * acc + (N_of_ascii c - 48))%N rest
  end.

Definition int_of_digits (digits : string) : N := int_of_digits_from 0%N digits.

Definition is_empty (s : string) : bool :=
  match s with EmptyString => true | String _ _ => false end.

(** ** Exceptions *)

Inductive exn : Type :=
| RequestError        (* httpx.RequestError: connection failures and timeouts *)
| HTTPStatusError     (* httpx.HTTPStatusError, from raise_for_status *)
| JSONDecodeError
| KeyError
| IndexError
| TypeError
| AttributeError
| ValueError.

Inductive result (A : Type) : Type :=
| Ok (a : A)
| Raise (e : exn).

Arguments Ok {A} a.
Arguments Raise {A} e.

(** [sys.int_max_str_digits], as CPython sets it. *)
Definition int_max_str_digits : nat := 4300.

(** [int(digits)]: the number written, or [ValueError] when the string is
    empty, holds a character that is no decimal digit, or is longer than
    the limit. *)
Definition int (digits : string) : result N :=
  if is_empty digits then Raise ValueError
  else if negb (is_empty (filter_chars (fun c => negb (is_decimal c)) digits)) then
    Raise ValueError
  else if (int_max_str_digits <? String.length digits)%nat then Raise ValueError
  else Ok (int_of_digits digits).

(** ** The version key of the registry-tag fetcher *)

Module Version.

(** One iteration of the loop body of [parse_version]: the integer appended
    for one part. *)
Definition parse_part (part : string) : result N :=
  let digits := filter_chars isdigit part in
  if is_empty digits then Ok 0%N else int digits.

(** The loop of [parse_version] over the parts, left to right. *)
Fixpoint parse_parts (parts : list string) : result (list N) :=
  match parts with
  | [] => Ok []
  | part :: rest =>
      match parse_part part with
      | Raise e => Raise e
      | Ok n =>
          match parse_parts rest with
          | Raise e => Raise e
          | Ok ns => Ok (n :: ns)
          end
      end
  end.

(** [parse_version(tag_name)]: the tuple of integers that [max] compares,
    or the [ValueError] of [int]. *)
Definition parse_version (tag_name : string) : result (list N) :=
  parse_parts (split "." tag_name).

(** Python's ordering of tuples of integers: the first position where the
    two differ decides, and when one runs out first the lengths decide. *)
Fixpoint tuple_compare (a b : list N) : comparison :=
  match a, b with
  | [], [] => Eq
  | [], _ :: _ => Lt
  | _ :: _, [] => Gt
  | x :: a', y :: b' =>
      match N.compare x y with
      | Eq => tuple_compare a' b'
      | c => c
      end
  end.

(** [a > b] on tuples. *)
Definition tuple_gt (a b : list N) : bool :=
  match tuple_compare a b with Gt => true | _ => false end.

(** [a <= b] on tuples, as a proposition. *)
Definition tuple_le (a b : list N) : Prop := tuple_compare a b <> Gt.

(** The scan of [max(items, key=key)] once a first candidate is held with
    its key: the key of each later item is computed as the scan reaches it,
    and the item replaces the candidate only when its key is strictly
    greater. *)
Fixpoint max_scan {A : Type} (key : A -> result (list N)) (best : A) (best_key : list N)
    (items : list A) : result A :=
  match items with
  | [] => Ok best
  | x :: items' =>
      match key x with
      | Raise e => Raise e
      | Ok k =>
          if tuple_gt k best_key then max_scan key x k items'
          else max_scan key best best_key items'
      end
  end.

(** [max(items, key=key)]: [ValueError] on an empty sequence, and whatever
    [key] raises. *)
Definition max_by {A : Type} (key : A -> result (list N)) (items : list A) : result A :=
  match items with
  | [] => Raise ValueError
  | x :: items' =>
      match key x with
      | Raise e => Raise e
      | Ok k => max_scan key x k items'
      end
  end.

(** The same scan over keys that are at hand: what [max] chooses when no
    key raises.  Used to state and prove what the choice is. *)
Fixpoint greatest_from {A : Type} (key : A -> list N) (best : A) (items : list A) : A :=
  match items with
  | [] => best
  | x :: items' =>
      greatest_from key (if tuple_gt (key x) (key best) then x else best) items'
  end.

Definition greatest {A : Type} (key : A -> list N) (items : list A) : option A :=
  match items with
  | [] => None
  | x :: items' => Some (greatest_from key x items')
  end.

(** The key of an item when it has one. *)
Definition key_of {A : Type} (key : A -> result (list N)) (x : A) : list N :=
  match key x with Ok k => k | Raise _ => [] end.

(** Whether [parse_part] finds a number in a part: no digit at all, or
    decimal digits only and no more than [int] takes. *)
Definition part_has_key (part : string) : bool :=
  let digits := filter_chars isdigit part in
  is_empty (filter_chars (fun c => negb (is_decimal c)) digits)
  && (String.length digits <=? int_max_str_digits)%nat.

Definition has_key (tag_name : string) : bool :=
  forallb part_has_key (split "." tag_name).

(** No character of [s] is a digit to [str.isdigit] without being a decimal
    digit: true of all ASCII text. *)
Definition decimal_digits_only (s : string) : bool :=
  is_empty (filter_chars (fun c => isdigit c && negb (is_decimal c)) s).

(** The ordering as the specification words it: the shorter sequence is
    extended with trailing zeros, then the two are compared position by
    position. *)
Definition pad_zeros (n : nat) (a : list N) : list N :=
  (a ++ repeat 0%N (n - length a))%list.

Definition spec_padded_compare (a b : list N) : comparison :=
  let n := Nat.max (length a) (length b) in
  tuple_compare (pad_zeros n a) (pad_zeros n b).

End Version.

(** ** Values decoded from JSON *)

#[local] Set Warnings "-register-all".

(** What [resp.json()] hands back.  The entries of a [PDict] are kept in
    insertion order; reading a key takes its first entry. *)
Inductive pyval : Type :=
| PNone
| PBool (b : bool)
| PInt (z : Z)
| PStr (s : string)
| PList (items : list pyval)
| PDict (entries : list (string * pyval)).

Definition dict : Type := list (string * pyval).

(** Truth value of an object, as [and], [or] and [if] test it. *)
Definition truthy (v : pyval) : bool :=
  match v with
  | PNone => false
  | PBool b => b
  | PInt z => negb (z =? 0)%Z
  | PStr s => negb (is_empty s)
  | PList items => match items with [] => false | _ :: _ => true end
  | PDict entries => match entries with [] => false | _ :: _ => true end
  end.

Fixpoint lookup {V : Type} (key : string) (entries : list (string * V)) : option V :=
  match entries with
  | [] => None
  | (k, v) :: rest => if String.eqb k key then Some v else lookup key rest
  end.

(** [d[key] = value]: an existing key keeps its position. *)
Fixpoint dict_set {V : Type} (d : list (string * V)) (key : string) (value : V)
  : list (string * V) :=
  match d with
  | [] => [(key, value)]
  | (k, v) :: rest =>
      if String.eqb k key then (k, value) :: rest else (k, v) :: dict_set rest key value
  end.

(** [dict(pairs)] *)
Definition dict_of_pairs {V : Type} (pairs : list (string * V)) : list (string * V) :=
  fold_left (fun d kv => dict_set d (fst kv) (snd kv)) pairs [].

(** [d.keys()] *)
Definition keys {V : Type} (d : list (string * V)) : list string := map fst d.

(** ** [json.dumps] with its default settings *)

Definition dquote : ascii := ascii_of_nat 34.
Definition backslash : ascii := ascii_of_nat 92.

Definition hex_digit (n : N) : ascii :=
  if (n <? 10)%N then ascii_of_N (48 + n) else ascii_of_N (87 + n).

(** The replacement of one character under [ensure_ascii=True]. *)
Definition escape_char (c : ascii) : string :=
  let n := N_of_ascii c in
  if Ascii.eqb c dquote then String backslash (String dquote EmptyString)
  else if Ascii.eqb c backslash then String backslash (String backslash EmptyString)
  else if (n =? 8)%N then String backslash "b"
  else if (n =? 12)%N then String backslash "f"
  else if (n =? 10)%N then String backslash "n"
  else if (n =? 13)%N then String backslash "r"
  else if (n =? 9)%N then String backslash "t"
  else if ((32 <=? n) && (n <=? 126))%N then String c EmptyString
  else String backslash
         (String "u" (String "0" (String "0"
            (String (hex_digit (n / 16)) (String (hex_digit (n mod 16)) EmptyString))))).

Fixpoint escape (s : string) : string :=
  match s with
  | EmptyString => EmptyString
  | String c s' => escape_char c ++ escape s'
  end.

Definition dumps_str (s : string) : string :=
  String dquote (escape s ++ String dquote EmptyString).

(** Decimal numeral of an integer, with a leading minus sign when negative. *)
Definition digits_of_pos (p : positive) : string :=
  (fix go (fuel : nat) (n : N) (acc : string) : string :=
     match fuel with
     | O => acc
     | S fuel' =>
         let acc' := String (ascii_of_N (48 + n mod 10)) acc in
         if (n / 10 =? 0)%N then acc' else go fuel' (n / 10)%N acc'
     end) (Pos.size_nat p) (Npos p) EmptyString.

Definition dumps_int (z : Z) : string :=
  match z with
  | Z0 => "0"
  | Zpos p => digits_of_pos p
  | Zneg p => String "-" (digits_of_pos p)
  end.

Fixpoint join (sep : string) (parts : list string) : string :=
  match parts with
  | [] => EmptyString
  | [p] => p
  | p :: rest => p ++ sep ++ join sep rest
  end.

Fixpoint dumps (v : pyval) : string :=
  match v with
  | PNone => "null"
  | PBool true => "true"
  | PBool false => "false"
  | PInt z => dumps_int z
  | PStr s => dumps_str s
  | PList items => "[" ++ join ", " (map dumps items) ++ "]"
  | PDict entries =>
      "{" ++ join ", " (map (fun kv => dumps_str (fst kv) ++ ": " ++ dumps (snd kv)) entries)
          ++ "}"
  end.

(** ** Exceptions, log lines and the effect of a Python computation *)

(** What the process leaves behind besides its values: the lines given to
    [app.logger] and the pauses of [sleep]. *)
Inductive effect : Type :=
| LogInfo (msg : string)
| LogInfoDict (msg : string) (d : dict)   (* an f-string that prints a mapping *)
| LogError (msg : string) (e : exn)       (* an f-string that ends with the exception *)
| Sleep (seconds : Z).

(** A computation: the effects it emitted, and how it ended. *)
Definition Py (A : Type) : Type := list effect * result A.

Definition ret {A : Type} (a : A) : Py A := ([], Ok a).

Definition raise {A : Type} (e : exn) : Py A := ([], Raise e).

(** A call that logs nothing: its value, or its exception. *)
Definition call {A : Type} (r : result A) : Py A := ([], r).

Definition emit (f : effect) : Py unit := ([f], Ok tt).

Definition bind {A B : Type} (m : Py A) (k : A -> Py B) : Py B :=
  match m with
  | (out, Ok a) => let (out', r) := k a in ((out ++ out')%list, r)
  | (out, Raise e) => (out, Raise e)
  end.

Notation "x <- m ;; k" := (bind m (fun x => k))
  (at level 61, m at next level, right associativity).
Notation "m ;;; k" := (bind m (fun _ => k))
  (at level 61, right associativity).

(** [try: body / except <classes> as e: handler]: [handler e] is [None] for
    an exception that the clause does not name, which then propagates. *)
Definition try_except {A : Type} (body : Py A) (handler : exn -> option (Py A)) : Py A :=
  match body with
  | (out, Ok a) => (out, Ok a)
  | (out, Raise e) =>
      match handler e with
      | Some h => let (out', r) := h in ((out ++ out')%list, r)
      | None => (out, Raise e)
      end
  end.

Definition outcome {A : Type} (m : Py A) : result A := snd m.
Definition emitted {A : Type} (m : Py A) : list effect := fst m.

(** ** Operations on decoded values *)

(** [v.get(key, default)]: only a mapping has the method. *)
Definition get_method (v : pyval) (key : string) (default : pyval) : Py pyval :=
  match v with
  | PDict entries =>
      ret (match lookup key entries with Some x => x | None => default end)
  | _ => raise AttributeError
  end.

(** [v[key]] for a string [key]. *)
Definition subscript_str (v : pyval) (key : string) : Py pyval :=
  match v with
  | PDict entries =>
      match lookup key entries with Some x => ret x | None => raise KeyError end
  | _ => raise TypeError
  end.

(** [v[0]].  A mapping decoded from JSON has string keys only, so the
    integer key is absent from it. *)
Definition subscript_zero (v : pyval) : Py pyval :=
  match v with
  | PList (x :: _) => ret x
  | PList [] => raise IndexError
  | PStr (String c _) => ret (PStr (String c EmptyString))
  | PStr EmptyString => raise IndexError
  | PDict _ => raise KeyError
  | PNone | PBool _ | PInt _ => raise TypeError
  end.

(** [len(v)] *)
Definition len (v : pyval) : Py Z :=
  match v with
  | PStr s => ret (Z.of_nat (String.length s))
  | PList items => ret (Z.of_nat (List.length items))
  | PDict entries => ret (Z.of_nat (List.length entries))
  | PNone | PBool _ | PInt _ => raise TypeError
  end.

Fixpoint chars (s : string) : list pyval :=
  match s with
  | EmptyString => []
  | String c s' => PStr (String c EmptyString) :: chars s'
  end.

(** The items that [for x in v] visits. *)
Definition iterate (v : pyval) : Py (list pyval) :=
  match v with
  | PList items => ret items
  | PStr s => ret (chars s)
  | PDict entries => ret (map (fun kv => PStr (fst kv)) entries)
  | PNone | PBool _ | PInt _ => raise TypeError
  end.

(** ** The HTTP client *)

Record request : Type := {
  url : string;
  headers : list (string * string);
  timeout : Z
}.

(** What comes back for a request: nothing usable (connection failure or
    timeout), or a status line with a body.  The body is kept as the value
    it decodes to, [None] when it is not JSON. *)
Inductive reply : Type :=
| NoReply
| Reply (status_code : Z) (body : option pyval).

Record response : Type := {
  status : Z;
  decoded : option pyval
}.

(** [httpx.AsyncClient(headers=...)]: the headers given at construction go
    out with every request of the client. *)
Record AsyncClient : Type := {
  client_headers : list (string * string);
  network : request -> reply
}.

(** The request that [client.get(url, timeout=t)] puts on the wire. *)
Definition request_of (client : AsyncClient) (u : string) (t : Z) : request :=
  {| url := u; headers := client_headers client; timeout := t |}.

(** [await client.get(url, timeout=t)] *)
Definition client_get (client : AsyncClient) (u : string) (t : Z) : Py response :=
  match network client (request_of client u t) with
  | NoReply => raise RequestError
  | Reply code body => ret {| status := code; decoded := body |}
  end.

(** [resp.raise_for_status()]: anything but 2xx raises. *)
Definition raise_for_status (resp : response) : Py unit :=
  if ((200 <=? status resp) && (status resp <=? 299))%Z then ret tt
  else raise HTTPStatusError.

(** [resp.json()], for a body that is text: the value it decodes to, or
    [JSONDecodeError]. *)
Definition json (resp : response) : Py pyval :=
  match decoded resp with
  | Some v => ret v
  | None => raise JSONDecodeError
  end.

(** ** Source fetchers *)

Definition github_url (repo : string) : string :=
  "https://api.github.com/repos/" ++ repo ++ "/releases/latest".

Definition channel_url (channel : string) : string :=
  "https://update." ++ channel ++ ".io/v1-release/channels".

Definition dockerhub_url (repo name_filter : string) : string :=
  "https://hub.docker.com/v2/repositories/" ++ repo ++ "/tags?name=" ++ name_filter
    ++ "&page_size=100".

(** [fetch_github_release(client, repo)] *)
Definition fetch_github_release (client : AsyncClient) (repo : string) : Py pyval :=
  try_except
    (resp <- client_get client (github_url repo) 10 ;;
     raise_for_status resp ;;;
     data <- json resp ;;
     tag_name <- get_method data "tag_name" (PStr EmptyString) ;;
     ret (if truthy tag_name then tag_name else PStr "no release found"))
    (fun e =>
       match e with
       | RequestError | HTTPStatusError =>
           Some (emit (LogError ("GitHub API error for " ++ repo ++ ": ") e) ;;;
                 ret (PStr "error fetching release"))
       | _ => None
       end).

(** The exception classes named by the [except] clause shared by the channel
    fetcher and the registry-tag fetcher. *)
Definition absorbed (e : exn) : bool :=
  match e with
  | RequestError | HTTPStatusError | JSONDecodeError | KeyError | IndexError => true
  | TypeError | AttributeError | ValueError => false
  end.

(** [fetch_channel_version(client, channel)] *)
Definition fetch_channel_version (client : AsyncClient) (channel : string) : Py pyval :=
  try_except
    (resp <- client_get client (channel_url channel) 10 ;;
     raise_for_status resp ;;;
     data <- json resp ;;
     releases <- subscript_str data "data" ;;
     first <- subscript_zero releases ;;
     latest <- subscript_str first "latest" ;;
     let head := partition_head "+" (remove_char dquote (dumps latest)) in
     ret (PStr head))
    (fun e =>
       if absorbed e then
         Some (emit (LogError ("Channel API error for " ++ channel ++ ": ") e) ;;;
               ret (PStr "upstream server issue"))
       else None).

Definition excluded : list string := ["ppc"; "dev"; "beta"; "ea"].

(** [any(ex in name.lower() for ex in excluded)] *)
Definition has_excluded (name : string) : bool :=
  existsb (fun ex => contains ex (lower name)) excluded.

(** One step of the comprehension that builds [valid_tags]: the name that
    [tag] contributes, if any. *)
Definition valid_tag (tag : pyval) : Py (option string) :=
  name <- get_method tag "name" (PStr EmptyString) ;;
  if truthy name then
    match name with
    | PStr s =>
        ret (if has_excluded s then None else Some s)
    | _ => raise AttributeError      (* no method [lower] *)
    end
  else ret None.

Fixpoint valid_tags (tags : list pyval) : Py (list string) :=
  match tags with
  | [] => ret []
  | tag :: rest =>
      kept <- valid_tag tag ;;
      others <- valid_tags rest ;;
      ret (match kept with Some s => s :: others | None => others end)
  end.

(** [fetch_dockerhub_tags(client, repo, name_filter)] *)
Definition fetch_dockerhub_tags (client : AsyncClient) (repo name_filter : string)
  : Py pyval :=
  try_except
    (resp <- client_get client (dockerhub_url repo name_filter) 10 ;;
     raise_for_status resp ;;;
     data <- json resp ;;
     results <- get_method data "results" PNone ;;
     nonempty <- (if truthy results
                  then n <- len results ;; ret (0 <? n)%Z
                  else ret false) ;;
     if nonempty then
       tags <- iterate results ;;
       valid <- valid_tags tags ;;
       match valid with
       | _ :: _ =>
           best <- call (Version.max_by Version.parse_version valid) ;;
           ret (PStr best)
       | [] => ret (PStr "no valid tags found")
       end
     else ret (PStr "no tags found"))
    (fun e =>
       if absorbed e then
         Some (emit (LogError ("Docker Hub API error for " ++ repo ++ ": ") e) ;;;
               ret (PStr "error fetching tags"))
       else None).

(** ** Configuration read at import time *)

(** [HEADERS], from the value of [os.getenv('GITHUB2_TOKEN')]: an unset or
    empty variable gives the empty mapping. *)
Definition HEADERS (GITHUB_TOKEN : option string) : list (string * string) :=
  match GITHUB_TOKEN with
  | Some token =>
      if is_empty token then [] else [("Authorization", "Bearer " ++ token)]
  | None => []
  end.

(** ** Version aggregation *)

(** An entry of [sources]: a tuple of two or three components, the third
    being the keyword options of the fetcher. *)
Record source_data : Type := {
  source_type : string;
  identifier : string;
  source_options : option (list (string * string))
}.

Definition source (kind ident : string) : source_data :=
  {| source_type := kind; identifier := ident; source_options := None |}.

Definition source_with (kind ident : string) (opts : list (string * string)) : source_data :=
  {| source_type := kind; identifier := ident; source_options := Some opts |}.

Definition sources : list (string * source_data) :=
  [ ("rancher", source "github" "rancher/rancher");
    ("rke2-stable", source "channel" "rke2");
    ("k3s-stable", source "channel" "k3s");
    ("longhorn", source "github" "longhorn/longhorn");
    ("cert-manager", source "github" "cert-manager/cert-manager");
    ("harvester", source "github" "harvester/harvester");
    ("hauler", source "github" "hauler-dev/hauler");
    ("portworx", source_with "dockerhub" "portworx/px-pure-csi-driver" [("name_filter", "25")]);
    ("px_oper", source_with "dockerhub" "portworx/px-operator" [("name_filter", "25")]);
    ("stork", source_with "dockerhub" "openstorage/stork" [("name_filter", "25")]);
    ("pxenterprise", source_with "dockerhub" "portworx/px-enterprise" [("name_filter", "3")]) ].

(** The call of [fetch_dockerhub_tags] with the options as keywords: [name_filter] is
    the only keyword the function accepts and defaults to ["version"]. *)
Definition call_fetch_dockerhub_tags (client : AsyncClient) (ident : string)
    (options : list (string * string)) : Py pyval :=
  if forallb (fun kv => String.eqb (fst kv) "name_filter") options then
    fetch_dockerhub_tags client ident
      (match lookup "name_filter" options with Some f => f | None => "version" end)
  else raise TypeError.

(** The body of the loop over [sources.items()]: the task appended for one
    entry, none when the type is not one of the three. *)
Definition task_of (client : AsyncClient) (data : source_data) : option (Py pyval) :=
  let options := match source_options data with Some o => o | None => [] end in
  if String.eqb (source_type data) "github" then
    Some (fetch_github_release client (identifier data))
  else if String.eqb (source_type data) "channel" then
    Some (fetch_channel_version client (identifier data))
  else if String.eqb (source_type data) "dockerhub" then
    Some (call_fetch_dockerhub_tags client (identifier data) options)
  else None.

Fixpoint tasks_of (client : AsyncClient) (entries : list (string * source_data))
  : list (Py pyval) :=
  match entries with
  | [] => []
  | (_, data) :: rest =>
      match task_of client data with
      | Some task => task :: tasks_of client rest
      | None => tasks_of client rest
      end
  end.

(** [await asyncio.gather] over the tasks: the results in the order of the tasks,
    or the exception of a task that raised.  The tasks share nothing but the
    client, and each sends one request.  They run concurrently: when several
    raise, which exception comes out, and which lines were logged before it,
    depends on the order in which the replies arrive.  The tasks are run
    here in the order of the registry, which is one such order; whether the
    call returns, and what it returns, is the same in all of them. *)
Fixpoint gather {A : Type} (tasks : list (Py A)) : Py (list A) :=
  match tasks with
  | [] => ret []
  | task :: rest =>
      x <- task ;;
      xs <- gather rest ;;
      ret (x :: xs)
  end.

(** [get_versions_async()], given the module's [HEADERS] and the network
    reached by the client of this cycle. *)
Definition get_versions_async (hdrs : list (string * string)) (net : request -> reply)
  : Py dict :=
  let client := {| client_headers := hdrs; network := net |} in
  results <- gather (tasks_of client sources) ;;
  ret (dict_of_pairs (combine (keys sources) results)).

(** ** The cache and its background refresher *)

(** The module-level state: the global [version_cache], and what the
    process has logged and slept so far. *)
Record app_state : Type := {
  version_cache : dict;
  trace : list effect
}.

(** The module as just imported: [version_cache = {}]. *)
Definition initial_state : app_state := {| version_cache := []; trace := [] |}.

(** One turn of the [while True] loop of [refresh_versions(interval)]: the
    announcement, the guarded attempt whose success is the assignment to
    [version_cache], and the pause. *)
Definition refresh_cycle (hdrs : list (string * string)) (interval : Z)
    (net : request -> reply) (st : app_state) : app_state :=
  let attempt :=
    try_except
      (snapshot <- get_versions_async hdrs net ;;
       emit (LogInfoDict "Cache updated: " snapshot) ;;;
       ret (Some snapshot))
      (fun e => Some (emit (LogError "Error refreshing version cache: " e) ;;; ret None)) in
  {| version_cache :=
       match outcome attempt with
       | Ok (Some snapshot) => snapshot
       | _ => version_cache st
       end;
     trace := (trace st ++ [LogInfo "Refreshing version cache..."]
                 ++ emitted attempt ++ [Sleep interval])%list |}.

(** [refresh_versions(interval)] over the cycles whose networks are listed:
    the loop itself never ends, a run of it is cut after that many turns. *)
Fixpoint refresh_versions (hdrs : list (string * string)) (interval : Z)
    (nets : list (request -> reply)) (st : app_state) : app_state :=
  match nets with
  | [] => st
  | net :: later => refresh_versions hdrs interval later (refresh_cycle hdrs interval net st)
  end.

(** ** Flask routes *)

(** [json_all_the_things()]: the mapping handed to [jsonify] and the status
    code; the second component is the module state after the call. *)
Definition json_all_the_things (st : app_state) : (dict * Z) * app_state :=
  ((version_cache st, 200%Z), st).

(** [d.get(key, default)] on the cache. *)
Definition cache_get (d : dict) (key : string) (default : pyval) : pyval :=
  match lookup key d with Some v => v | None => default end.

(** The template variables of the status page with the cache key each one
    shows. *)
Definition page_fields : list (string * string) :=
  [ ("rancher_ver", "rancher");
    ("rke_ver", "rke2-stable");
    ("k3s_ver", "k3s-stable");
    ("longhorn_ver", "longhorn");
    ("cert_ver", "cert-manager");
    ("harv_ver", "harvester");
    ("hauler_ver", "hauler");
    ("portworx_ver", "portworx");
    ("pxe_ver", "pxenterprise");
    ("px_oper_ver", "px_oper");
    ("stork_ver", "stork") ].

(** [curl_all_the_things()]: the context given to [render_template]. *)
Definition curl_all_the_things (st : app_state) : list (string * pyval) * app_state :=
  (map (fun f => (fst f, cache_get (version_cache st) (snd f) (PStr "loading..."))) page_fields,
   st).

(** ** The process started as a script

    Running the module as [__main__] starts the daemon thread of
    [refresh_versions] while the module is being executed, then warms the
    cache up in the main thread, then serves.  The two threads share
    [version_cache] only; each write to it is one assignment, so a run of
    the process is an interleaving of the steps below. *)

Inductive phase : Type :=
| WarmingUp     (* the main thread has not finished the warm-up *)
| Serving       (* [app.run] is accepting requests *)
| Exited.       (* the warm-up raised: the script ended *)

Record process : Type := {
  app : app_state;
  main_thread : phase
}.

Inductive event : Type :=
| BackgroundTurn (net : request -> reply)
| WarmUp (net : request -> reply)
| GetJson (payload : dict * Z)
| GetPage (context : list (string * pyval)).

(** The process right after [Thread(target=refresh_versions).start()]. *)
Definition started : process := {| app := initial_state; main_thread := WarmingUp |}.

Section Process.

Variable hdrs : list (string * string).
Variable interval : Z.

Inductive step : process -> event -> process -> Prop :=
| step_background : forall p net,
    main_thread p <> Exited ->
    step p (BackgroundTurn net)
         {| app := refresh_cycle hdrs interval net (app p); main_thread := main_thread p |}
| step_warm_up : forall p net out snapshot,
    main_thread p = WarmingUp ->
    get_versions_async hdrs net = (out, Ok snapshot) ->
    step p (WarmUp net)
         {| app := {| version_cache := snapshot; trace := (trace (app p) ++ out)%list |};
            main_thread := Serving |}
| step_warm_up_raises : forall p net out e,
    main_thread p = WarmingUp ->
    get_versions_async hdrs net = (out, Raise e) ->
    step p (WarmUp net)
         {| app := {| version_cache := version_cache (app p);
                      trace := (trace (app p) ++ out)%list |};
            main_thread := Exited |}
| step_get_json : forall p,
    main_thread p = Serving ->
    step p (GetJson (fst (json_all_the_things (app p))))
         {| app := snd (json_all_the_things (app p)); main_thread := Serving |}
| step_get_page : forall p,
    main_thread p = Serving ->
    step p (GetPage (fst (curl_all_the_things (app p))))
         {| app := snd (curl_all_the_things (app p)); main_thread := Serving |}.

(** [run p evs q]: the process goes from [p] to [q] through the events
    [evs], oldest first. *)
Inductive run : process -> list event -> process -> Prop :=
| run_done : forall p, run p [] p
| run_then : forall p evs q ev r,
    run p evs q -> step q ev r -> run p (evs ++ [ev])%list r.

End Process.

(** ** Vocabulary of the statements *)

(** The name that one entry of [results] carries when the entry is an object
    whose [name], if present, is a string: what [tag.get('name', '')] is. *)
Definition tag_name (tag : pyval) : option string :=
  match tag with
  | PDict entries =>
      match lookup "name" entries with
      | Some (PStr s) => Some s
      | Some _ => None
      | None => Some EmptyString
      end
  | _ => None
  end.

Fixpoint tag_names (tags : list pyval) : option (list string) :=
  match tags with
  | [] => Some []
  | tag :: rest =>
      match tag_name tag, tag_names rest with
      | Some n, Some ns => Some (n :: ns)
      | _, _ => None
      end
  end.

(** The names that the fetcher keeps: non-empty and free of every excluded
    substring. *)
Definition kept (name : string) : bool :=
  negb (is_empty name) && negb (has_excluded name).

(** 2xx *)
Definition is_success (code : Z) : bool := ((200 <=? code) && (code <=? 299))%Z.

(** A string that [json.dumps] writes between its quotes unchanged and
    without a quote inside: printable ASCII, no quote, no backslash. *)
Definition plain_char (c : ascii) : bool :=
  ((32 <=? N_of_ascii c) && (N_of_ascii c <=? 126))%N
  && negb (Ascii.eqb c dquote) && negb (Ascii.eqb c backslash).

Fixpoint plain (s : string) : bool :=
  match s with
  | EmptyString => true
  | String c s' => plain_char c && plain s'
  end.

(** *** The specification's wording, for comparison with the code *)

(** Registry tags: exclude exactly the tags that contain one of the four
    substrings, then answer by the three cases. *)
Definition spec_registry_answer (names : list string) : string :=
  match names with
  | [] => "no tags found"
  | _ :: _ =>
      match Version.max_by Version.parse_version
              (filter (fun n => negb (has_excluded n)) names) with
      | Ok best => best
      | Raise _ => "no valid tags found"
      end
  end.

(** Channel version: strip the quote characters that surround the text. *)
Fixpoint lstrip (c : ascii) (s : string) : string :=
  match s with
  | EmptyString => EmptyString
  | String d s' => if Ascii.eqb d c then lstrip c s' else s
  end.

Fixpoint rstrip (c : ascii) (s : string) : string :=
  match s with
  | EmptyString => EmptyString
  | String d s' =>
      let r := rstrip c s' in
      if is_empty r && Ascii.eqb d c then EmptyString else String d r
  end.

Definition spec_channel_head (latest : pyval) : string :=
  partition_head "+" (rstrip dquote (lstrip dquote (dumps latest))).

(** ** Fixtures *)

(** A client without default headers in front of a server that answers
    every request alike. *)
Definition always (r : reply) : AsyncClient :=
  {| client_headers := []; network := fun _ => r |}.

Definition tag (name : string) : pyval := PDict [("name", PStr name)].

Definition tags_body (names : list string) : pyval :=
  PDict [("results", PList (map tag names))].

Definition channel_body (latest : pyval) : pyval :=
  PDict [("data", PList [PDict [("latest", latest)]])].

(** A network on which no server is reached. *)
Definition unreachable : request -> reply := fun _ => NoReply.

(** A server whose 2xx reply is not JSON: the release-tag fetcher does not
    absorb the decoding error, so the whole aggregation raises. *)
Definition garbled : request -> reply := fun _ => Reply 200 None.

(** The process once its warm-up, run while no server is reached, is over. *)
Definition warmed_up_offline : process :=
  {| app := {| version_cache :=
                 match outcome (get_versions_async [] unreachable) with
                 | Ok snapshot => snapshot
                 | Raise _ => []
                 end;
               trace := (trace initial_state
                           ++ emitted (get_versions_async [] unreachable))%list |};
     main_thread := Serving |}.

(** A body that each of the three fetchers finds a version in. *)
Definition catch_all_body : pyval :=
  PDict [("tag_name", PStr "v2.9.1");
         ("data", PList [PDict [("latest", PStr "v1.31.2+rke2r1")]]);
         ("results", PList [PDict [("name", PStr "25.2.0")]])].

(** A network on which the k3s channel server alone answers. *)
Definition k3s_only : request -> reply :=
  fun r =>
    if String.prefix "https://update.k3s" (url r)
    then Reply 200 (Some catch_all_body)
    else NoReply.

(** Servers that answer with [catch_all_body] when the request carries the
    [Authorization] value [credentials] and with 401 otherwise, whatever
    the host. *)
Definition bearer_only (credentials : string) : request -> reply :=
  fun r =>
    match lookup "Authorization" (headers r) with
    | Some given =>
        if String.eqb given credentials then Reply 200 (Some catch_all_body)
        else Reply 401 None
    | None => Reply 401 None
    end.

(** *** Vocabulary of the further properties *)

(** The characters a version key is read from. *)
Definition digit_or_dot (c : ascii) : bool := isdigit c || Ascii.eqb c ".".

(** How often [c] occurs in [s]. *)
Fixpoint occurrences (c : ascii) (s : string) : nat :=
  match s with
  | EmptyString => O
  | String d s' => (if Ascii.eqb d c then 1 else 0) + occurrences c s'
  end.

(** [c in s] for a character. *)
Fixpoint has_char (c : ascii) (s : string) : bool :=
  match s with
  | EmptyString => false
  | String d s' => Ascii.eqb d c || has_char c s'
  end.

(** The URL that the task of a registry entry requests, when it has one. *)
Definition source_url (data : source_data) : option string :=
  if String.eqb (source_type data) "github" then Some (github_url (identifier data))
  else if String.eqb (source_type data) "channel" then Some (channel_url (identifier data))
  else if String.eqb (source_type data) "dockerhub" then
    Some (dockerhub_url (identifier data)
            match source_options data with
            | Some options =>
                match lookup "name_filter" options with Some f => f | None => "version" end
            | None => "version"
            end)
  else None.

(** The snapshot of the last of the cycles whose aggregation returned. *)
Fixpoint latest_snapshot (hdrs : list (string * string)) (nets : list (request -> reply))
  : option dict :=
  match nets with
  | [] => None
  | net :: later =>
      match latest_snapshot hdrs later with
      | Some snapshot => Some snapshot
      | None =>
          match outcome (get_versions_async hdrs net) with
          | Ok snapshot => Some snapshot
          | Raise _ => None
          end
      end
  end.

Definition is_sleep (e : effect) : bool :=
  match e with Sleep _ => true | _ => false end.

Definition is_announcement (e : effect) : bool :=
  match e with
  | LogInfo msg => String.eqb msg "Refreshing version cache..."
  | _ => false
  end.

(** The line that closes the attempt of a cycle, one way or the other. *)
Definition is_verdict (e : effect) : bool :=
  match e with
  | LogInfoDict msg _ => String.eqb msg "Cache updated: "
  | LogError msg _ => String.eqb msg "Error refreshing version cache: "
  | _ => false
  end.

(** The effects that only the refresh loop itself produces. *)
Definition loop_effect (e : effect) : bool :=
  is_sleep e || is_announcement e || is_verdict e.

(** The seconds slept, added up. *)
Fixpoint slept (t : list effect) : Z :=
  match t with
  | [] => 0%Z
  | Sleep seconds :: rest => (seconds + slept rest)%Z
  | _ :: rest => slept rest
  end.

(** * Properties *)

(** ** The ordering of version keys *)

Module VersionFacts.
Import Version.

Lemma tuple_compare_refl : forall a, tuple_compare a a = Eq.
Proof.
  induction a as [|x a IH]; simpl; [reflexivity|].
  now rewrite N.compare_refl.
Qed.

Lemma tuple_compare_eq : forall a b, tuple_compare a b = Eq -> a = b.
Proof.
  induction a as [|x a IH]; destruct b as [|y b]; simpl; try discriminate; auto.
  destruct (N.compare_spec x y) as [Hxy|Hxy|Hxy]; try discriminate.
  intros Hrest; subst; f_equal; auto.
Qed.

Lemma tuple_compare_antisym : forall a b, tuple_compare b a = CompOpp (tuple_compare a b).
Proof.
  induction a as [|x a IH]; destruct b as [|y b]; simpl; auto.
  rewrite (N.compare_antisym x y).
  destruct (N.compare x y); simpl; auto.
Qed.

(** A tuple comes strictly before each of its proper extensions. *)
Lemma tuple_compare_prefix : forall a x r, tuple_compare a (a ++ x :: r)%list = Lt.
Proof.
  induction a as [|y a IH]; intros; simpl; [reflexivity|].
  now rewrite N.compare_refl.
Qed.

(** Behind a common prefix, the first differing position decides. *)
Lemma tuple_compare_first_difference : forall p x y a b,
  x <> y -> tuple_compare (p ++ x :: a)%list (p ++ y :: b)%list = N.compare x y.
Proof.
  induction p as [|z p IH]; intros x y a b Hxy; simpl.
  - destruct (N.compare_spec x y); congruence.
  - rewrite N.compare_refl. now apply IH.
Qed.

Lemma tuple_le_trans : forall a b c, tuple_le a b -> tuple_le b c -> tuple_le a c.
Proof.
  unfold tuple_le.
  induction a as [|x a IH]; destruct b as [|y b]; destruct c as [|z c]; simpl;
    try congruence.
  destruct (N.compare_spec x y), (N.compare_spec y z), (N.compare_spec x z);
    subst; try congruence; try lia; eauto.
Qed.

Lemma tuple_gt_false_le : forall a b, tuple_gt a b = false <-> tuple_le a b.
Proof.
  unfold tuple_gt, tuple_le; intros a b.
  destruct (tuple_compare a b); split; congruence.
Qed.

Lemma tuple_gt_true_le : forall a b, tuple_gt a b = true -> tuple_le b a.
Proof.
  unfold tuple_gt, tuple_le; intros a b.
  rewrite (tuple_compare_antisym a b).
  destruct (tuple_compare a b); simpl; congruence.
Qed.

(** Zeros never come after anything of their length. *)
Lemma zeros_le : forall b, tuple_compare (repeat 0%N (length b)) b <> Gt.
Proof.
  induction b as [|y b IH]; simpl; [congruence|].
  destruct y; simpl; [exact IH | congruence].
Qed.

Lemma le_zeros : forall a, tuple_compare a (repeat 0%N (length a)) <> Lt.
Proof.
  induction a as [|x a IH]; simpl; [congruence|].
  destruct x; simpl; [exact IH | congruence].
Qed.

Lemma pad_zeros_cons : forall n x a, pad_zeros (S n) (x :: a) = x :: pad_zeros n a.
Proof. reflexivity. Qed.

Lemma pad_zeros_nil : forall n, pad_zeros n [] = repeat 0%N n.
Proof. intros; unfold pad_zeros; simpl. now rewrite Nat.sub_0_r. Qed.

Lemma pad_zeros_full : forall a, pad_zeros (length a) a = a.
Proof.
  intros; unfold pad_zeros. rewrite Nat.sub_diag. simpl. apply app_nil_r.
Qed.

(** How the code's ordering reads off the padded one: they agree on every
    pair that padding tells apart, and on a padded tie the shorter tuple
    comes first. *)
Lemma tuple_compare_vs_padded : forall a b,
  tuple_compare a b =
  match spec_padded_compare a b with
  | Eq => Nat.compare (length a) (length b)
  | c => c
  end.
Proof.
  unfold spec_padded_compare.
  induction a as [|x a IH]; destruct b as [|y b].
  - reflexivity.
  - change (Nat.max (length (@nil N)) (length (y :: b))) with (length (y :: b)).
    rewrite pad_zeros_nil, pad_zeros_full.
    pose proof (zeros_le (y :: b)) as H.
    destruct (tuple_compare (repeat 0%N (length (y :: b))) (y :: b));
      try reflexivity; congruence.
  - change (Nat.max (length (x :: a)) (length (@nil N))) with (length (x :: a)).
    rewrite pad_zeros_nil, pad_zeros_full.
    pose proof (le_zeros (x :: a)) as H.
    destruct (tuple_compare (x :: a) (repeat 0%N (length (x :: a))));
      try reflexivity; congruence.
  - cbn [length Nat.max]. rewrite !pad_zeros_cons.
    cbn [tuple_compare Nat.compare].
    destruct (N.compare x y); auto.
Qed.

Lemma tuple_lt_le_trans : forall a b c,
  tuple_compare a b = Lt -> tuple_le b c -> tuple_compare a c = Lt.
Proof.
  unfold tuple_le.
  induction a as [|x a IH]; destruct b as [|y b]; destruct c as [|z c]; simpl;
    try congruence.
  destruct (N.compare_spec x y), (N.compare_spec y z), (N.compare_spec x z);
    subst; try congruence; try lia; eauto.
Qed.

Lemma tuple_le_lt_trans : forall a b c,
  tuple_le a b -> tuple_compare b c = Lt -> tuple_compare a c = Lt.
Proof.
  unfold tuple_le.
  induction a as [|x a IH]; destruct b as [|y b]; destruct c as [|z c]; simpl;
    try congruence.
  destruct (N.compare_spec x y), (N.compare_spec y z), (N.compare_spec x z);
    subst; try congruence; try lia; eauto.
Qed.

Lemma tuple_gt_true_lt : forall a b, tuple_gt a b = true -> tuple_compare b a = Lt.
Proof.
  unfold tuple_gt; intros a b.
  rewrite (tuple_compare_antisym a b).
  destruct (tuple_compare a b); simpl; congruence.
Qed.

(** The scan ends on an item that no earlier item reaches and no later item
    exceeds. *)
Lemma greatest_from_split {A : Type} (key : A -> list N) : forall items best,
  exists pre post,
    best :: items = (pre ++ greatest_from key best items :: post)%list
    /\ (forall t, In t pre -> tuple_compare (key t) (key (greatest_from key best items)) = Lt)
    /\ (forall t, In t post -> tuple_le (key t) (key (greatest_from key best items))).
Proof.
  induction items as [|x items IH]; intros best.
  - exists [], []. simpl. repeat split; intros t [].
  - simpl. destruct (tuple_gt (key x) (key best)) eqn:Hgt.
    + destruct (IH x) as (pre & post & Heq & Hpre & Hpost).
      exists (best :: pre), post. split; [simpl; now rewrite Heq|]. split; [|exact Hpost].
      intros t [<-|Ht]; [|auto].
      apply tuple_lt_le_trans with (key x); [now apply tuple_gt_true_lt|].
      destruct pre as [|p0 pre'].
      * injection Heq as Hx _. rewrite <- Hx.
        unfold tuple_le; now rewrite tuple_compare_refl.
      * injection Heq as Hx _. subst p0.
        unfold tuple_le. rewrite (Hpre x); [congruence | now left].
    + destruct (IH best) as (pre & post & Heq & Hpre & Hpost).
      apply tuple_gt_false_le in Hgt.
      destruct pre as [|p0 pre'].
      * injection Heq as Hb Hitems.
        exists [], (x :: items). split; [simpl; now rewrite <- Hb|]. split; [intros t []|].
        intros t [<-|Ht]; [now rewrite <- Hb|].
        apply Hpost. now rewrite <- Hitems.
      * injection Heq as Hb Hitems. subst p0.
        exists (best :: x :: pre'), post. split; [simpl; now rewrite <- Hitems|].
        split; [|exact Hpost].
        intros t [<-|[<-|Ht]].
        -- apply Hpre; now left.
        -- apply tuple_le_lt_trans with (key best); [exact Hgt | apply Hpre; now left].
        -- apply Hpre; now right.
Qed.

(** What [max] returns: an item of the list that no item exceeds, and the
    earliest of those. *)
Lemma greatest_spec {A : Type} (key : A -> list N) : forall items best,
  greatest key items = Some best ->
  exists pre post,
    items = (pre ++ best :: post)%list
    /\ (forall t, In t pre -> tuple_compare (key t) (key best) = Lt)
    /\ (forall t, In t post -> tuple_gt (key t) (key best) = false).
Proof.
  intros [|x items] best H; simpl in H; [discriminate|].
  injection H as <-.
  destruct (greatest_from_split key items x) as (pre & post & Heq & Hpre & Hpost).
  exists pre, post. split; [exact Heq|]. split; [exact Hpre|].
  intros t Ht; apply tuple_gt_false_le; auto.
Qed.

Lemma greatest_none {A : Type} (key : A -> list N) : forall items,
  greatest key items = None <-> items = [].
Proof. intros [|x items]; simpl; split; congruence. Qed.

(** *** The scan of [max] with keys that may raise *)

Lemma max_scan_all_keys {A : Type} (key : A -> result (list N)) : forall items best,
  (forall t, In t (best :: items) -> exists k, key t = Ok k) ->
  max_scan key best (key_of key best) items = Ok (greatest_from (key_of key) best items).
Proof.
  induction items as [|x items IH]; intros best Hall; [reflexivity|].
  cbn [max_scan greatest_from].
  destruct (Hall x (or_intror (or_introl eq_refl))) as [k Hk].
  assert (Hkx : key_of key x = k) by (unfold key_of; now rewrite Hk).
  rewrite Hk, Hkx.
  destruct (tuple_gt k (key_of key best)).
  - rewrite <- Hkx.
    apply IH. intros t [<-|Ht]; [eauto | apply Hall; now right; right].
  - apply IH. intros t [<-|Ht]; [apply Hall; now left | apply Hall; now right; right].
Qed.

(** With a key for every item, [max] returns what the scan over the keys
    chooses. *)
Lemma max_by_all_keys {A : Type} (key : A -> result (list N)) : forall items,
  (forall t, In t items -> exists k, key t = Ok k) ->
  max_by key items
  = match greatest (key_of key) items with
    | Some best => Ok best
    | None => Raise ValueError
    end.
Proof.
  intros [|x items] Hall; [reflexivity|].
  cbn [max_by greatest].
  destruct (Hall x (or_introl eq_refl)) as [k Hk]. rewrite Hk.
  replace k with (key_of key x) by (unfold key_of; now rewrite Hk).
  now apply max_scan_all_keys.
Qed.

Lemma max_scan_raises {A : Type} (key : A -> result (list N)) : forall items best best_key,
  (forall t e, key t = Raise e -> e = ValueError) ->
  (exists t, In t items /\ forall k, key t <> Ok k) ->
  max_scan key best best_key items = Raise ValueError.
Proof.
  induction items as [|x items IH]; intros best best_key Honly (t & Hin & Hno);
    [destruct Hin|].
  cbn [max_scan]. destruct (key x) as [k|e] eqn:Hx.
  - assert (Hrest : exists t, In t items /\ forall k, key t <> Ok k).
    { destruct Hin as [<-|Hin]; [now destruct (Hno k) | eauto]. }
    destruct (tuple_gt k best_key); now apply IH.
  - now rewrite (Honly x e Hx).
Qed.

(** With an item whose key raises, [max] raises. *)
Lemma max_by_raises {A : Type} (key : A -> result (list N)) : forall items,
  (forall t e, key t = Raise e -> e = ValueError) ->
  (exists t, In t items /\ forall k, key t <> Ok k) ->
  max_by key items = Raise ValueError.
Proof.
  intros [|x items] Honly (t & Hin & Hno); [destruct Hin|].
  cbn [max_by]. destruct (key x) as [k|e] eqn:Hx.
  - apply max_scan_raises; [exact Honly|].
    destruct Hin as [<-|Hin]; [now destruct (Hno k) | eauto].
  - now rewrite (Honly x e Hx).
Qed.

Lemma max_scan_only_value_error {A : Type} (key : A -> result (list N)) :
  forall items best best_key e,
    (forall t e, key t = Raise e -> e = ValueError) ->
    max_scan key best best_key items = Raise e -> e = ValueError.
Proof.
  induction items as [|x items IH]; intros best best_key e Honly H; cbn [max_scan] in H;
    [discriminate|].
  destruct (key x) as [k|e'] eqn:Hx.
  - destruct (tuple_gt k best_key); eapply IH; eassumption.
  - injection H as <-. exact (Honly x e' Hx).
Qed.

Lemma max_by_only_value_error {A : Type} (key : A -> result (list N)) : forall items e,
  (forall t e, key t = Raise e -> e = ValueError) ->
  max_by key items = Raise e -> e = ValueError.
Proof.
  intros [|x items] e Honly H; cbn [max_by] in H; [now injection H|].
  destruct (key x) as [k|e'] eqn:Hx.
  - eapply max_scan_only_value_error; eassumption.
  - injection H as <-. exact (Honly x e' Hx).
Qed.

(** *** Keys *)

Lemma int_cases : forall digits,
  int digits
  = if negb (is_empty digits)
       && is_empty (filter_chars (fun c => negb (is_decimal c)) digits)
       && (String.length digits <=? int_max_str_digits)%nat
    then Ok (int_of_digits digits) else Raise ValueError.
Proof.
  intros digits. unfold int.
  destruct (is_empty digits); [reflexivity|].
  destruct (is_empty (filter_chars _ digits)); [|reflexivity].
  cbn [negb andb].
  destruct (Nat.ltb_spec int_max_str_digits (String.length digits)) as [H|H];
    destruct (Nat.leb_spec (String.length digits) int_max_str_digits) as [H'|H'];
    try reflexivity; lia.
Qed.

Lemma parse_part_cases : forall part,
  parse_part part
  = if part_has_key part
    then Ok (int_of_digits (filter_chars isdigit part)) else Raise ValueError.
Proof.
  intros part. unfold parse_part, part_has_key.
  destruct (filter_chars isdigit part) as [|c digits] eqn:Hd; [reflexivity|].
  cbn [is_empty]. rewrite int_cases. reflexivity.
Qed.

Lemma parse_parts_cases : forall parts,
  parse_parts parts
  = if forallb part_has_key parts
    then Ok (map (fun part => int_of_digits (filter_chars isdigit part)) parts)
    else Raise ValueError.
Proof.
  induction parts as [|part parts IH]; [reflexivity|].
  cbn [parse_parts forallb map]. rewrite parse_part_cases, IH.
  destruct (part_has_key part); [|reflexivity].
  destruct (forallb part_has_key parts); reflexivity.
Qed.

(** A tag has a key exactly when each of its parts has a number, and the
    only exception of [parse_version] is [ValueError]. *)
Lemma parse_version_cases : forall tag,
  parse_version tag
  = if has_key tag
    then Ok (map (fun part => int_of_digits (filter_chars isdigit part)) (split "." tag))
    else Raise ValueError.
Proof. intros tag. apply parse_parts_cases. Qed.

Lemma filter_chars_and : forall (p q : ascii -> bool) s,
  filter_chars q (filter_chars p s) = filter_chars (fun c => p c && q c) s.
Proof.
  intros p q. induction s as [|c s IH]; simpl; [reflexivity|].
  destruct (p c); simpl; [destruct (q c)|]; now rewrite IH.
Qed.

Lemma filter_chars_length : forall p s,
  (String.length (filter_chars p s) <= String.length s)%nat.
Proof.
  intros p. induction s as [|c s IH]; simpl; [lia|].
  destruct (p c); simpl; lia.
Qed.

Lemma split_parts_bounded : forall s,
  decimal_digits_only s = true ->
  Forall (fun part => decimal_digits_only part = true
                      /\ (String.length part <= String.length s)%nat)
         (split "." s).
Proof.
  unfold decimal_digits_only.
  induction s as [|c s IH]; intros Hs.
  - repeat constructor.
  - cbn [split filter_chars] in *.
    destruct (isdigit c && negb (is_decimal c)) eqn:Hc; [discriminate Hs|].
    specialize (IH Hs).
    assert (Hweak : Forall (fun part =>
                              is_empty (filter_chars
                                          (fun c => isdigit c && negb (is_decimal c)) part)
                              = true
                              /\ (String.length part <= String.length (String c s))%nat)
                           (split "." s)).
    { eapply Forall_impl; [|exact IH]. intros part [Hp Hl]. split; [exact Hp|].
      simpl. lia. }
    destruct (Ascii.eqb c "."); [constructor; [split; [reflexivity | simpl; lia] | exact Hweak]|].
    destruct (split "." s) as [|part parts];
      [constructor; [split; [cbn [filter_chars]; now rewrite Hc | simpl; lia] | constructor]|].
    inversion IH as [|x xs [Hp Hl] Hrest]; subst.
    inversion Hweak as [|x xs _ Hrest']; subst.
    constructor; [|exact Hrest'].
    split; [cbn [filter_chars]; now rewrite Hc | simpl; lia].
Qed.

(** A tag without the superscript digits and no longer than [int] takes
    has a key; every ASCII tag of a registry is such. *)
Lemma short_decimal_tag_has_key : forall tag,
  decimal_digits_only tag = true ->
  (String.length tag <= int_max_str_digits)%nat ->
  has_key tag = true.
Proof.
  intros tag Hd Hlen. unfold has_key. apply forallb_forall. intros part Hin.
  pose proof (split_parts_bounded tag Hd) as Hall. rewrite Forall_forall in Hall.
  destruct (Hall part Hin) as [Hp Hl]. unfold part_has_key, decimal_digits_only in *.
  rewrite filter_chars_and, Hp. cbn [andb].
  apply Nat.leb_le. pose proof (filter_chars_length isdigit part). lia.
Qed.

Lemma parse_version_raises : forall tag e, parse_version tag = Raise e -> e = ValueError.
Proof.
  intros tag e H. rewrite parse_version_cases in H.
  destruct (has_key tag); [discriminate | now injection H].
Qed.

End VersionFacts.

(** C1, as the specification states it, fails: the tags [3.1] and [3.1.0]
    tie once the shorter key is padded with zeros, yet the code orders the
    key of [3.1] strictly before that of [3.1.0], and the fetcher answers
    [3.1.0] whichever of the two the registry lists first. *)
Lemma padded_tie_is_strict_in_code :
  Version.parse_version "3.1" = Ok [3%N; 1%N]
  /\ Version.parse_version "3.1.0" = Ok [3%N; 1%N; 0%N]
  /\ Version.spec_padded_compare [3%N; 1%N] [3%N; 1%N; 0%N] = Eq
  /\ Version.tuple_compare [3%N; 1%N] [3%N; 1%N; 0%N] = Lt
  /\ outcome (fetch_dockerhub_tags (always (Reply 200 (Some (tags_body ["3.1"; "3.1.0"]))))
                "portworx/px-enterprise" "3") = Ok (PStr "3.1.0")
  /\ outcome (fetch_dockerhub_tags (always (Reply 200 (Some (tags_body ["3.1.0"; "3.1"]))))
                "portworx/px-enterprise" "3") = Ok (PStr "3.1.0").
Proof. repeat split; reflexivity. Qed.

(** C1 (amended): the version key of a tag is obtained by splitting the tag
    on ['.'], keeping of each component the characters that [str.isdigit]
    accepts and reading them with [int], 0 when none is left; [int] raises
    [ValueError], and the tag has no key, when a component keeps a
    character that is no decimal digit or more than 4300 digits, which no
    tag of at most 4300 ASCII characters does.  Keys are compared position
    by position, the first difference deciding, and a key that is a proper
    prefix of another comes strictly before it (no padding with zeros): the
    ordering agrees with the zero-padded one on every pair that padding
    tells apart and puts the shorter key first on a padded tie.  For the
    tags [3.1.0], [3.2.0-ea], [3.10.0] the kept tags are [3.1.0] and
    [3.10.0] and the fetcher returns [3.10.0]. *)
Theorem version_ordering_is_prefix_lexicographic :
  (forall tag,
      Version.parse_version tag
      = if Version.has_key tag
        then Ok (map (fun part => int_of_digits (filter_chars isdigit part)) (split "." tag))
        else Raise ValueError)
  /\ (forall tag,
         Version.decimal_digits_only tag = true ->
         (String.length tag <= 4300)%nat ->
         Version.has_key tag = true)
  /\ (forall p x y a b,
         x <> y ->
         Version.tuple_compare (p ++ x :: a)%list (p ++ y :: b)%list = N.compare x y)
  /\ (forall a x r, Version.tuple_compare a (a ++ x :: r)%list = Lt)
  /\ (forall a b, Version.tuple_compare a b = Eq <-> a = b)
  /\ (forall a b,
         Version.tuple_compare a b
         = match Version.spec_padded_compare a b with
           | Eq => Nat.compare (length a) (length b)
           | c => c
           end)
  /\ Version.parse_version "v2.1" = Ok [2%N; 1%N]
  /\ Version.parse_version "2.1rc" = Ok [2%N; 1%N]
  /\ Version.parse_version (String "1" (String (ascii_of_nat 178) EmptyString))
     = Raise ValueError
  /\ valid_tags (map tag ["3.1.0"; "3.2.0-ea"; "3.10.0"]) = ([], Ok ["3.1.0"; "3.10.0"])
  /\ fetch_dockerhub_tags (always (Reply 200 (Some (tags_body ["3.1.0"; "3.2.0-ea"; "3.10.0"]))))
       "portworx/px-enterprise" "3"
     = ([], Ok (PStr "3.10.0")).
Proof.
  split; [exact VersionFacts.parse_version_cases|].
  split; [exact VersionFacts.short_decimal_tag_has_key|].
  split; [exact VersionFacts.tuple_compare_first_difference|].
  split; [exact VersionFacts.tuple_compare_prefix|].
  split.
  { intros a b; split.
    - apply VersionFacts.tuple_compare_eq.
    - intros ->. apply VersionFacts.tuple_compare_refl. }
  split; [exact VersionFacts.tuple_compare_vs_padded|].
  repeat split; reflexivity.
Qed.

(** C1 at work on concrete keys: a first difference, and a prefix. *)
Lemma version_ordering_examples :
  Version.tuple_compare [3%N; 10%N; 0%N] [3%N; 2%N; 0%N] = Gt
  /\ Version.tuple_compare [3%N; 1%N] [3%N; 1%N; 0%N] = Lt.
Proof.
  destruct version_ordering_is_prefix_lexicographic as (_ & _ & Hdiff & Hprefix & _).
  split.
  - apply (Hdiff [3%N] 10%N 2%N [0%N] [0%N]). discriminate.
  - apply (Hprefix [3%N; 1%N] 0%N []).
Defined.

(** ** The release-tag fetcher *)

(** Unfolds a fetcher down to the reply that its one request receives. *)
Ltac to_reply H :=
  unfold fetch_github_release, fetch_channel_version, fetch_dockerhub_tags, client_get;
  rewrite H; cbn [bind try_except ret raise emit].

Ltac with_status Hcode :=
  unfold raise_for_status, is_success in *; cbn [status decoded] in *;
  rewrite Hcode; cbn [bind try_except ret raise emit json status decoded app].

(** C4: a 2xx reply whose object carries a non-empty [tag_name] is answered
    with that value as it stands; one whose [tag_name] is empty or absent
    with [no release found]; a request that fails or a status outside 2xx
    with [error fetching release], after one line of log. *)
Theorem release_tag_fetch_cases : forall client repo,
  let sent := network client (request_of client (github_url repo) 10) in
  (forall code entries tag_name,
      sent = Reply code (Some (PDict entries)) ->
      is_success code = true ->
      lookup "tag_name" entries = Some tag_name ->
      truthy tag_name = true ->
      fetch_github_release client repo = ([], Ok tag_name))
  /\ (forall code entries,
         sent = Reply code (Some (PDict entries)) ->
         is_success code = true ->
         match lookup "tag_name" entries with
         | Some v => truthy v = false
         | None => True
         end ->
         fetch_github_release client repo = ([], Ok (PStr "no release found")))
  /\ (sent = NoReply ->
      fetch_github_release client repo
      = ([LogError ("GitHub API error for " ++ repo ++ ": ") RequestError],
         Ok (PStr "error fetching release")))
  /\ (forall code body,
         sent = Reply code body ->
         is_success code = false ->
         fetch_github_release client repo
         = ([LogError ("GitHub API error for " ++ repo ++ ": ") HTTPStatusError],
            Ok (PStr "error fetching release"))).
Proof.
  intros client repo sent; subst sent.
  split; [|split; [|split]].
  - intros code entries tag_name Hsent Hcode Hfield Htruthy.
    to_reply Hsent. with_status Hcode.
    unfold get_method. rewrite Hfield. cbn. now rewrite Htruthy.
  - intros code entries Hsent Hcode Hfield.
    to_reply Hsent. with_status Hcode.
    unfold get_method.
    destruct (lookup "tag_name" entries) as [v|]; cbn; [now rewrite Hfield | reflexivity].
  - intros Hsent. to_reply Hsent. reflexivity.
  - intros code body Hsent Hcode. to_reply Hsent. with_status Hcode. reflexivity.
Qed.

(** C4 on the replies of the specification's test list. *)
Lemma release_tag_fetch_examples :
  fetch_github_release
    (always (Reply 200 (Some (PDict [("tag_name", PStr "v1.2.3")])))) "rancher/rancher"
  = ([], Ok (PStr "v1.2.3"))
  /\ fetch_github_release
       (always (Reply 200 (Some (PDict [("tag_name", PStr EmptyString)])))) "rancher/rancher"
     = ([], Ok (PStr "no release found"))
  /\ fetch_github_release (always (Reply 200 (Some (PDict [])))) "rancher/rancher"
     = ([], Ok (PStr "no release found"))
  /\ outcome (fetch_github_release (always (Reply 500 None)) "rancher/rancher")
     = Ok (PStr "error fetching release").
Proof.
  split; [|split; [|split]].
  - apply (proj1 (release_tag_fetch_cases _ _) 200%Z [("tag_name", PStr "v1.2.3")]);
      reflexivity.
  - apply (proj1 (proj2 (release_tag_fetch_cases _ _)) 200%Z
             [("tag_name", PStr EmptyString)]); reflexivity.
  - apply (proj1 (proj2 (release_tag_fetch_cases _ _)) 200%Z []); [reflexivity .. | exact I].
  - rewrite (proj2 (proj2 (proj2 (release_tag_fetch_cases
               (always (Reply 500 None)) "rancher/rancher"))) 500%Z None);
      reflexivity.
Defined.

(** ** The registry-tag fetcher *)

(** On entries of the expected shape the comprehension keeps the names that
    [kept] accepts, in their order, and raises nothing. *)
Lemma valid_tag_of_name : forall t n,
  tag_name t = Some n ->
  valid_tag t = ([], Ok (if kept n then Some n else None)).
Proof.
  intros t n Hn. unfold tag_name in Hn. destruct t; try discriminate.
  unfold valid_tag, get_method, kept.
  destruct (lookup "name" entries) as [[| | |s| |]|]; try discriminate;
    injection Hn as <-; [|reflexivity].
  destruct s as [|c s]; [reflexivity|].
  unfold bind, ret; cbn [truthy is_empty negb andb app].
  destruct (has_excluded (String c s)); reflexivity.
Qed.

Lemma valid_tags_of_names : forall tags names,
  tag_names tags = Some names ->
  valid_tags tags = ([], Ok (filter kept names)).
Proof.
  induction tags as [|t tags IH]; intros names Hnames; simpl in Hnames.
  - injection Hnames as <-. reflexivity.
  - destruct (tag_name t) as [n|] eqn:Hn; [|discriminate].
    destruct (tag_names tags) as [ns|]; [|discriminate].
    injection Hnames as <-.
    cbn [valid_tags filter]. rewrite (IH ns eq_refl), (valid_tag_of_name _ _ Hn).
    destruct (kept n); reflexivity.
Qed.

Lemma tag_names_nil : forall tags names,
  tag_names tags = Some names -> (names = [] <-> tags = []).
Proof.
  intros [|t tags] names H; simpl in H.
  - injection H as <-. tauto.
  - destruct (tag_name t), (tag_names tags); try discriminate.
    injection H as <-. split; discriminate.
Qed.

(** C10: a 2xx reply whose object has no [results] key, or has a falsy value
    under it, is answered with [no tags found]: no line is logged and no
    exception leaves the fetcher. *)
Theorem missing_results_is_no_tags : forall client repo name_filter code entries,
  network client (request_of client (dockerhub_url repo name_filter) 10)
  = Reply code (Some (PDict entries)) ->
  is_success code = true ->
  match lookup "results" entries with
  | Some v => truthy v = false
  | None => True
  end ->
  fetch_dockerhub_tags client repo name_filter = ([], Ok (PStr "no tags found")).
Proof.
  intros client repo name_filter code entries Hsent Hcode Hresults.
  to_reply Hsent. with_status Hcode.
  unfold get_method.
  destruct (lookup "results" entries) as [v|]; cbn; [now rewrite Hresults | reflexivity].
Qed.

(** C10 on a body without the key, and on bodies whose [results] is null or
    the empty list. *)
Lemma missing_results_examples :
  fetch_dockerhub_tags (always (Reply 200 (Some (PDict [("count", PInt 0)]))))
    "openstorage/stork" "25" = ([], Ok (PStr "no tags found"))
  /\ fetch_dockerhub_tags (always (Reply 200 (Some (PDict [("results", PNone)]))))
       "openstorage/stork" "25" = ([], Ok (PStr "no tags found"))
  /\ fetch_dockerhub_tags (always (Reply 200 (Some (PDict [("results", PList [])]))))
       "openstorage/stork" "25" = ([], Ok (PStr "no tags found")).
Proof.
  split; [|split].
  - apply (missing_results_is_no_tags _ _ _ 200%Z [("count", PInt 0)]);
      [reflexivity | reflexivity | exact I].
  - apply (missing_results_is_no_tags _ _ _ 200%Z [("results", PNone)]); reflexivity.
  - apply (missing_results_is_no_tags _ _ _ 200%Z [("results", PList [])]); reflexivity.
Defined.

(** C2, as the specification states it, fails: a listed tag whose name is
    empty contains none of the four substrings, so by the specification it
    stays and is the answer, while the fetcher drops it and reports that no
    valid tag is left. *)
Lemma empty_name_is_not_kept :
  has_excluded EmptyString = false
  /\ spec_registry_answer [EmptyString] = EmptyString
  /\ outcome (fetch_dockerhub_tags (always (Reply 200 (Some (tags_body [EmptyString]))))
                "openstorage/stork" "25")
     = Ok (PStr "no valid tags found")
  /\ outcome (fetch_dockerhub_tags (always (Reply 200 (Some (tags_body [EmptyString]))))
                "openstorage/stork" "25")
     <> Ok (PStr (spec_registry_answer [EmptyString])).
Proof. repeat split; try reflexivity. discriminate. Qed.

(** What [max] chooses among names that all have a key: a name that no
    name exceeds, and the earliest of those. *)
Lemma max_of_keyed_names : forall valid,
  valid <> [] ->
  (forall n, In n valid -> Version.has_key n = true) ->
  exists best earlier later best_key,
    Version.max_by Version.parse_version valid = Ok best
    /\ valid = (earlier ++ best :: later)%list
    /\ Version.parse_version best = Ok best_key
    /\ (forall n, In n earlier ->
          exists k, Version.parse_version n = Ok k
                    /\ Version.tuple_compare k best_key = Lt)
    /\ (forall n, In n later ->
          exists k, Version.parse_version n = Ok k
                    /\ Version.tuple_gt k best_key = false).
Proof.
  intros valid Hne Hall.
  assert (Hkeys : forall n, In n valid ->
                            Version.parse_version n
                            = Ok (Version.key_of Version.parse_version n)).
  { intros n Hin. unfold Version.key_of.
    rewrite VersionFacts.parse_version_cases, (Hall n Hin). reflexivity. }
  rewrite VersionFacts.max_by_all_keys by (intros t Ht; eexists; exact (Hkeys t Ht)).
  destruct (Version.greatest (Version.key_of Version.parse_version) valid) as [best|] eqn:Hg;
    [|apply VersionFacts.greatest_none in Hg; contradiction].
  destruct (VersionFacts.greatest_spec _ _ _ Hg) as (pre & post & Heq & Hpre & Hpost).
  exists best, pre, post, (Version.key_of Version.parse_version best).
  split; [reflexivity|]. split; [exact Heq|].
  assert (Hin : forall n, In n pre \/ n = best \/ In n post -> In n valid).
  { intros n H. rewrite Heq. apply in_or_app. simpl.
    destruct H as [H|[->|H]]; auto. }
  split; [apply Hkeys, Hin; right; left; reflexivity|]. split.
  - intros n Hn. eexists. split; [apply Hkeys, Hin; tauto | now apply Hpre].
  - intros n Hn. eexists. split; [apply Hkeys, Hin; tauto | now apply Hpost].
Qed.

(** C2 (amended): for a 2xx reply whose object lists under [results] entries
    that are objects with a string (or no) [name], the fetcher keeps exactly
    the names that are non-empty and contain none of [ppc], [dev], [beta],
    [ea] in any letter case; with no entry listed it answers [no tags
    found], with entries but none kept [no valid tags found], and otherwise,
    when every kept name has a version key, the kept name of greatest key,
    the earliest one among equals.  A kept name without a key makes [max]
    raise the [ValueError] of [int], which the fetcher lets through.  A
    request that fails, a status outside 2xx and a body that is not JSON
    are answered with [error fetching tags]. *)
Theorem registry_tag_fetch_cases : forall client repo name_filter,
  let sent := network client (request_of client (dockerhub_url repo name_filter) 10) in
  (forall code entries tags names,
      sent = Reply code (Some (PDict entries)) ->
      is_success code = true ->
      lookup "results" entries = Some (PList tags) ->
      tag_names tags = Some names ->
      fetch_dockerhub_tags client repo name_filter
      = match names with
        | [] => ([], Ok (PStr "no tags found"))
        | _ :: _ =>
            match filter kept names with
            | [] => ([], Ok (PStr "no valid tags found"))
            | _ :: _ =>
                match Version.max_by Version.parse_version (filter kept names) with
                | Ok best => ([], Ok (PStr best))
                | Raise e => ([], Raise e)
                end
            end
        end)
  /\ (forall names,
         filter kept names = []
         <-> forall n, In n names -> is_empty n = true \/ has_excluded n = true)
  /\ (forall names,
         filter kept names <> [] ->
         (forall n, In n (filter kept names) -> Version.has_key n = true) ->
         exists best earlier later best_key,
           Version.max_by Version.parse_version (filter kept names) = Ok best
           /\ filter kept names = (earlier ++ best :: later)%list
           /\ Version.parse_version best = Ok best_key
           /\ (forall n, In n earlier ->
                 exists k, Version.parse_version n = Ok k
                           /\ Version.tuple_compare k best_key = Lt)
           /\ (forall n, In n later ->
                 exists k, Version.parse_version n = Ok k
                           /\ Version.tuple_gt k best_key = false))
  /\ (forall names n,
         In n (filter kept names) -> Version.has_key n = false ->
         Version.max_by Version.parse_version (filter kept names) = Raise ValueError)
  /\ (forall n,
         Version.decimal_digits_only n = true -> (String.length n <= 4300)%nat ->
         Version.has_key n = true)
  /\ (sent = NoReply ->
      outcome (fetch_dockerhub_tags client repo name_filter) = Ok (PStr "error fetching tags"))
  /\ (forall code body,
         sent = Reply code body -> is_success code = false ->
         outcome (fetch_dockerhub_tags client repo name_filter)
         = Ok (PStr "error fetching tags"))
  /\ (forall code,
         sent = Reply code None -> is_success code = true ->
         outcome (fetch_dockerhub_tags client repo name_filter)
         = Ok (PStr "error fetching tags")).
Proof.
  intros client repo name_filter sent; subst sent.
  repeat match goal with |- _ /\ _ => split end.
  - intros code entries tags names Hsent Hcode Hresults Hnames.
    to_reply Hsent. with_status Hcode.
    unfold get_method. rewrite Hresults.
    destruct tags as [|t tags].
    + injection Hnames as <-. reflexivity.
    + cbn [bind ret truthy len iterate].
      replace (0 <? Z.of_nat (length (t :: tags)))%Z with true by reflexivity.
      cbn [bind ret app].
      rewrite (valid_tags_of_names _ _ Hnames).
      destruct names as [|n names];
        [apply tag_names_nil in Hnames; destruct Hnames as [Hnil _];
         discriminate (Hnil eq_refl)|].
      cbn [bind ret app].
      destruct (filter kept (n :: names)) as [|v valid]; [reflexivity|].
      unfold call.
      destruct (Version.max_by Version.parse_version (v :: valid)) as [best|e] eqn:Hmax;
        [reflexivity|].
      apply VersionFacts.max_by_only_value_error in Hmax;
        [|exact VersionFacts.parse_version_raises].
      subst e. reflexivity.
  - intros names. split.
    + intros Hnone n Hin.
      destruct (is_empty n) eqn:He; [now left|right].
      destruct (has_excluded n) eqn:Hx; [reflexivity|].
      assert (Hk : In n (filter kept names))
        by (apply filter_In; split; [exact Hin | unfold kept; now rewrite He, Hx]).
      rewrite Hnone in Hk. destruct Hk.
    + intros Hall. destruct (filter kept names) as [|n rest] eqn:Hf; [reflexivity|].
      assert (Hk : In n (filter kept names)) by (rewrite Hf; now left).
      apply filter_In in Hk. destruct Hk as [Hin Hk]. unfold kept in Hk.
      destruct (Hall n Hin) as [He|Hx]; [rewrite He in Hk | rewrite Hx in Hk];
        try discriminate Hk.
      now rewrite andb_false_r in Hk.
  - intros names. apply max_of_keyed_names.
  - intros names n Hin Hkey.
    apply VersionFacts.max_by_raises; [exact VersionFacts.parse_version_raises|].
    exists n. split; [exact Hin|].
    intros k Hk. rewrite VersionFacts.parse_version_cases, Hkey in Hk. discriminate Hk.
  - exact VersionFacts.short_decimal_tag_has_key.
  - intros Hsent. to_reply Hsent. reflexivity.
  - intros code body Hsent Hcode. to_reply Hsent. with_status Hcode. reflexivity.
  - intros code Hsent Hcode. to_reply Hsent. with_status Hcode. reflexivity.
Qed.

(** C2 on the replies of the specification's test list. *)
Lemma registry_tag_fetch_examples :
  fetch_dockerhub_tags
    (always (Reply 200 (Some (tags_body ["3.1.0"; "3.2.0-EA"; "3.10.0"; "3.11.0-beta"]))))
    "portworx/px-enterprise" "3" = ([], Ok (PStr "3.10.0"))
  /\ fetch_dockerhub_tags (always (Reply 200 (Some (tags_body ["25.1-dev"; "ppc64le"]))))
       "portworx/px-enterprise" "3" = ([], Ok (PStr "no valid tags found"))
  /\ fetch_dockerhub_tags (always (Reply 200 (Some (tags_body []))))
       "portworx/px-enterprise" "3" = ([], Ok (PStr "no tags found"))
  /\ outcome (fetch_dockerhub_tags (always (Reply 503 None)) "portworx/px-enterprise" "3")
     = Ok (PStr "error fetching tags").
Proof.
  split; [|split; [|split]].
  - apply (proj1 (registry_tag_fetch_cases _ _ _) 200%Z
             [("results", PList (map tag ["3.1.0"; "3.2.0-EA"; "3.10.0"; "3.11.0-beta"]))]
             (map tag ["3.1.0"; "3.2.0-EA"; "3.10.0"; "3.11.0-beta"])
             ["3.1.0"; "3.2.0-EA"; "3.10.0"; "3.11.0-beta"]); reflexivity.
  - apply (proj1 (registry_tag_fetch_cases _ _ _) 200%Z
             [("results", PList (map tag ["25.1-dev"; "ppc64le"]))]
             (map tag ["25.1-dev"; "ppc64le"]) ["25.1-dev"; "ppc64le"]); reflexivity.
  - apply (proj1 (registry_tag_fetch_cases _ _ _) 200%Z
             [("results", PList [])] [] []); reflexivity.
  - apply (proj1 (proj2 (proj2 (proj2 (proj2 (proj2 (proj2 (registry_tag_fetch_cases
             (always (Reply 503 None)) "portworx/px-enterprise" "3"))))))) 503%Z None);
      reflexivity.
Defined.

(** ** The channel fetcher *)

Lemma escape_char_plain : forall c,
  plain_char c = true -> escape_char c = String c EmptyString.
Proof.
  intros [[] [] [] [] [] [] [] []] H; try discriminate H; reflexivity.
Qed.

Lemma plain_char_not_quote : forall c,
  plain_char c = true -> Ascii.eqb c dquote = false.
Proof.
  intros c H. unfold plain_char in H.
  destruct (Ascii.eqb c dquote); [|reflexivity].
  rewrite andb_false_r in H. discriminate H.
Qed.

(** [json.dumps] writes a plain string between two quotes, unchanged. *)
Lemma escape_plain : forall s, plain s = true -> escape s = s.
Proof.
  induction s as [|c s IH]; simpl; intros H; [reflexivity|].
  apply andb_prop in H. destruct H as [Hc Hs].
  rewrite (escape_char_plain c Hc), (IH Hs). reflexivity.
Qed.

Lemma remove_quote_plain : forall s,
  plain s = true -> remove_char dquote (s ++ String dquote EmptyString) = s.
Proof.
  unfold remove_char.
  induction s as [|c s IH]; simpl; intros H; [reflexivity|].
  apply andb_prop in H. destruct H as [Hc Hs].
  rewrite (plain_char_not_quote c Hc). simpl. now rewrite (IH Hs).
Qed.

Lemma unquoted_dumps_plain : forall s,
  plain s = true -> remove_char dquote (dumps (PStr s)) = s.
Proof.
  intros s H. cbn [dumps]. unfold dumps_str.
  rewrite (escape_plain s H).
  unfold remove_char at 1. cbn [filter_chars].
  replace (Ascii.eqb dquote dquote) with true by reflexivity. cbn [negb].
  exact (remove_quote_plain s H).
Qed.

(** C3, as the specification states it, fails: for a version text made of
    [a], a double quote and [b], stripping the quotes that surround its JSON form leaves the quote inside
    in place, while the fetcher deletes every quote character and answers
    with the backslash that escaped it. *)
Lemma inner_quote_is_removed_too :
  let latest := PStr (String "a" (String dquote "b")) in
  spec_channel_head latest = String "a" (String backslash (String dquote "b"))
  /\ outcome (fetch_channel_version (always (Reply 200 (Some (channel_body latest)))) "rke2")
     = Ok (PStr (String "a" (String backslash "b")))
  /\ outcome (fetch_channel_version (always (Reply 200 (Some (channel_body latest)))) "rke2")
     <> Ok (PStr (spec_channel_head latest)).
Proof. repeat split; try reflexivity. discriminate. Qed.

(** C3 (amended): for a 2xx reply whose object holds under [data] a list
    starting with an object that has a [latest] field, the fetcher answers
    with the JSON text of that field, every double-quote character removed,
    cut before its first ['+']; when the field is a string of printable
    characters without quote or backslash this is the string itself cut
    before its first ['+'], so [v1.31.2+rke2r1] gives [v1.31.2].  A request
    that fails, a status outside 2xx, a body that is not JSON, an object
    without [data], an empty [data] list and a first element without
    [latest] are answered with [upstream server issue]. *)
Theorem channel_fetch_cases : forall client channel,
  let sent := network client (request_of client (channel_url channel) 10) in
  let degraded e :=
    ([LogError ("Channel API error for " ++ channel ++ ": ") e],
     Ok (PStr "upstream server issue")) in
  (forall code entries first rest latest,
      sent = Reply code (Some (PDict entries)) ->
      is_success code = true ->
      lookup "data" entries = Some (PList (PDict first :: rest)) ->
      lookup "latest" first = Some latest ->
      fetch_channel_version client channel
      = ([], Ok (PStr (partition_head "+" (remove_char dquote (dumps latest))))))
  /\ (forall s,
         plain s = true ->
         partition_head "+" (remove_char dquote (dumps (PStr s))) = partition_head "+" s)
  /\ fetch_channel_version
       (always (Reply 200 (Some (channel_body (PStr "v1.31.2+rke2r1"))))) "rke2"
     = ([], Ok (PStr "v1.31.2"))
  /\ (sent = NoReply -> fetch_channel_version client channel = degraded RequestError)
  /\ (forall code body,
         sent = Reply code body -> is_success code = false ->
         fetch_channel_version client channel = degraded HTTPStatusError)
  /\ (forall code,
         sent = Reply code None -> is_success code = true ->
         fetch_channel_version client channel = degraded JSONDecodeError)
  /\ (forall code entries,
         sent = Reply code (Some (PDict entries)) -> is_success code = true ->
         lookup "data" entries = None ->
         fetch_channel_version client channel = degraded KeyError)
  /\ (forall code entries,
         sent = Reply code (Some (PDict entries)) -> is_success code = true ->
         lookup "data" entries = Some (PList []) ->
         fetch_channel_version client channel = degraded IndexError)
  /\ (forall code entries first rest,
         sent = Reply code (Some (PDict entries)) -> is_success code = true ->
         lookup "data" entries = Some (PList (PDict first :: rest)) ->
         lookup "latest" first = None ->
         fetch_channel_version client channel = degraded KeyError).
Proof.
  intros client channel sent degraded; subst sent degraded.
  repeat match goal with |- _ /\ _ => split end.
  - intros code entries first rest latest Hsent Hcode Hdata Hlatest.
    to_reply Hsent. with_status Hcode.
    unfold subscript_str at 1. rewrite Hdata.
    cbn [bind ret subscript_zero subscript_str app]. rewrite Hlatest. reflexivity.
  - intros s Hs. now rewrite (unquoted_dumps_plain s Hs).
  - reflexivity.
  - intros Hsent. to_reply Hsent. reflexivity.
  - intros code body Hsent Hcode. to_reply Hsent. with_status Hcode. reflexivity.
  - intros code Hsent Hcode. to_reply Hsent. with_status Hcode. reflexivity.
  - intros code entries Hsent Hcode Hdata.
    to_reply Hsent. with_status Hcode.
    unfold subscript_str at 1. rewrite Hdata. reflexivity.
  - intros code entries Hsent Hcode Hdata.
    to_reply Hsent. with_status Hcode.
    unfold subscript_str at 1. rewrite Hdata. reflexivity.
  - intros code entries first rest Hsent Hcode Hdata Hlatest.
    to_reply Hsent. with_status Hcode.
    unfold subscript_str at 1. rewrite Hdata.
    cbn [bind ret subscript_zero subscript_str app]. rewrite Hlatest. reflexivity.
Qed.

(** C3 on the replies of the specification's test list. *)
Lemma channel_fetch_examples :
  fetch_channel_version
    (always (Reply 200 (Some (channel_body (PStr "v1.32.4+k3s1"))))) "k3s"
  = ([], Ok (PStr "v1.32.4"))
  /\ partition_head "+" (remove_char dquote (dumps (PStr "v1.31.2+rke2r1"))) = "v1.31.2"
  /\ outcome (fetch_channel_version (always (Reply 200 None)) "k3s")
     = Ok (PStr "upstream server issue")
  /\ outcome (fetch_channel_version (always (Reply 200 (Some (PDict [("data", PList [])])))) "k3s")
     = Ok (PStr "upstream server issue").
Proof.
  pose proof (channel_fetch_cases (always (Reply 200 (Some (channel_body (PStr "v1.32.4+k3s1")))))
                "k3s") as (Hfound & Hplain & _).
  pose proof (channel_fetch_cases (always (Reply 200 None)) "k3s")
    as (_ & _ & _ & _ & _ & Hjson & _).
  pose proof (channel_fetch_cases (always (Reply 200 (Some (PDict [("data", PList [])])))) "k3s")
    as (_ & _ & _ & _ & _ & _ & _ & Hempty & _).
  split; [|split; [|split]].
  - apply (Hfound 200%Z [("data", PList [PDict [("latest", PStr "v1.32.4+k3s1")]])]
             [("latest", PStr "v1.32.4+k3s1")] [] (PStr "v1.32.4+k3s1")); reflexivity.
  - apply (Hplain "v1.31.2+rke2r1"). reflexivity.
  - rewrite (Hjson 200%Z); reflexivity.
  - rewrite (Hempty 200%Z [("data", PList [])]); reflexivity.
Defined.

(** ** The aggregator and the cache *)

Lemma gather_length {A : Type} : forall (tasks : list (Py A)) out xs,
  gather tasks = (out, Ok xs) -> length xs = length tasks.
Proof.
  induction tasks as [|[o [x|e]] tasks IH]; intros out xs H; simpl in H.
  - injection H as _ <-. reflexivity.
  - destruct (gather tasks) as [o' [xs'|e']]; simpl in H; [|discriminate].
    injection H as _ <-. simpl. f_equal. exact (IH o' xs' eq_refl).
  - discriminate.
Qed.

Lemma keys_dict_set_new {V : Type} : forall (d : list (string * V)) k v,
  ~ In k (keys d) -> keys (dict_set d k v) = (keys d ++ [k])%list.
Proof.
  induction d as [|[k0 v0] d IH]; intros k v Hnew; simpl; [reflexivity|].
  destruct (String.eqb_spec k0 k) as [->|Hne].
  - exfalso. apply Hnew. now left.
  - simpl. f_equal. apply IH. intros Hin. apply Hnew. now right.
Qed.

Lemma keys_fold_dict_set {V : Type} : forall (pairs d : list (string * V)),
  NoDup (keys d ++ map fst pairs)%list ->
  keys (fold_left (fun d kv => dict_set d (fst kv) (snd kv)) pairs d)
  = (keys d ++ map fst pairs)%list.
Proof.
  induction pairs as [|[k v] pairs IH]; intros d Hnodup; simpl.
  - now rewrite app_nil_r.
  - simpl in Hnodup.
    assert (Hnew : ~ In k (keys d)).
    { apply NoDup_remove_2 in Hnodup. intros Hin. apply Hnodup.
      apply in_or_app. now left. }
    rewrite IH; rewrite (keys_dict_set_new d k v Hnew), <- app_assoc; [reflexivity|].
    exact Hnodup.
Qed.

(** [dict(zip(names, values))] has the names as its keys, in their order,
    when the names are distinct and there is a value for each. *)
Lemma keys_dict_of_zip {V : Type} : forall (names : list string) (values : list V),
  NoDup names -> length values = length names ->
  keys (dict_of_pairs (combine names values)) = names.
Proof.
  intros names values Hnodup Hlen. unfold dict_of_pairs.
  assert (Hfst : map fst (combine names values) = names).
  { revert values Hlen. induction names as [|n names IH]; intros [|v values] Hlen;
      simpl in *; try discriminate; [reflexivity|].
    f_equal. apply IH; [now inversion Hnodup | now injection Hlen]. }
  rewrite keys_fold_dict_set; simpl; now rewrite Hfst.
Qed.

Lemma sources_distinct : NoDup (keys sources).
Proof.
  repeat (constructor; [simpl; intuition discriminate|]). constructor.
Qed.

(** Every entry of [sources] gets its task. *)
Lemma one_task_per_source : forall client,
  length (tasks_of client sources) = length (keys sources).
Proof. reflexivity. Qed.

(** A cycle of the aggregator that returns, returns a value for each
    registered name and for nothing else. *)
Lemma aggregate_keys : forall hdrs net out snapshot,
  get_versions_async hdrs net = (out, Ok snapshot) -> keys snapshot = keys sources.
Proof.
  intros hdrs net out snapshot H. unfold get_versions_async in H.
  set (client := {| client_headers := hdrs; network := net |}) in H.
  destruct (gather (tasks_of client sources)) as [o [results|e]] eqn:Hg;
    unfold bind, ret in H; [|discriminate].
  remember (dict_of_pairs (combine (keys sources) results)) as d eqn:Hd.
  injection H as _ <-. subst d.
  apply keys_dict_of_zip; [exact sources_distinct|].
  rewrite (gather_length _ _ _ Hg). apply one_task_per_source.
Qed.

(** What a turn of the loop does to the cache. *)
Lemma refresh_cycle_cache : forall hdrs interval net st,
  version_cache (refresh_cycle hdrs interval net st)
  = match outcome (get_versions_async hdrs net) with
    | Ok snapshot => snapshot
    | Raise _ => version_cache st
    end.
Proof.
  intros. unfold refresh_cycle. cbn [version_cache].
  destruct (get_versions_async hdrs net) as [out [snapshot|e]]; reflexivity.
Qed.

Lemma refresh_cycle_keeps_keys : forall hdrs interval net st,
  keys (version_cache st) = keys sources ->
  keys (version_cache (refresh_cycle hdrs interval net st)) = keys sources.
Proof.
  intros hdrs interval net st Hst. rewrite refresh_cycle_cache.
  destruct (get_versions_async hdrs net) as [out [snapshot|e]] eqn:Hagg; simpl.
  - exact (aggregate_keys _ _ _ _ Hagg).
  - exact Hst.
Qed.

Lemma lookup_in_keys {V : Type} : forall (d : list (string * V)) k,
  In k (keys d) <-> exists v, lookup k d = Some v.
Proof.
  induction d as [|[k0 v0] d IH]; intros k; simpl.
  - split; [tauto | intros [v Hv]; discriminate].
  - destruct (String.eqb_spec k0 k) as [->|Hne].
    + split; [eauto | auto].
    + rewrite <- IH. split; [intros [H|H]; [contradiction | exact H] | auto].
Qed.

(** C5: a refresh cycle whose aggregation returns leaves in the cache the
    snapshot just built, and the keys of that snapshot are the registered
    names, each once and no other, whatever each fetcher answered; every
    later turn of the loop, completed or not, keeps the key set. *)
Theorem completed_cycle_publishes_every_source :
  forall hdrs interval net st out snapshot,
    get_versions_async hdrs net = (out, Ok snapshot) ->
    version_cache (refresh_cycle hdrs interval net st) = snapshot
    /\ keys snapshot = keys sources
    /\ NoDup (keys snapshot)
    /\ (forall name, In name (keys sources) <-> exists v, lookup name snapshot = Some v)
    /\ (forall later,
           keys (version_cache
                   (refresh_versions hdrs interval later (refresh_cycle hdrs interval net st)))
           = keys sources).
Proof.
  intros hdrs interval net st out snapshot Hagg.
  pose proof (aggregate_keys _ _ _ _ Hagg) as Hkeys.
  assert (Hcache : version_cache (refresh_cycle hdrs interval net st) = snapshot)
    by (rewrite refresh_cycle_cache, Hagg; reflexivity).
  split; [exact Hcache|]. split; [exact Hkeys|].
  split; [rewrite Hkeys; exact sources_distinct|].
  split; [intros name; rewrite <- Hkeys; apply lookup_in_keys|].
  intros later.
  assert (Hnow : keys (version_cache (refresh_cycle hdrs interval net st)) = keys sources)
    by (rewrite Hcache; exact Hkeys).
  revert Hnow. generalize (refresh_cycle hdrs interval net st).
  induction later as [|net' later IH]; intros st' Hst'; simpl; [exact Hst'|].
  apply IH. now apply refresh_cycle_keeps_keys.
Qed.

(** C5 on a cycle in which no server is reached: eleven degraded answers,
    eleven keys. *)
Lemma unreachable_cycle_publishes_every_source :
  keys (version_cache (refresh_cycle [] 1800 (fun _ => NoReply) initial_state))
  = ["rancher"; "rke2-stable"; "k3s-stable"; "longhorn"; "cert-manager"; "harvester";
     "hauler"; "portworx"; "px_oper"; "stork"; "pxenterprise"].
Proof.
  destruct (completed_cycle_publishes_every_source [] 1800%Z (fun _ => NoReply)
              initial_state (emitted (get_versions_async [] (fun _ => NoReply)))
              (version_cache (refresh_cycle [] 1800 (fun _ => NoReply) initial_state))
              eq_refl) as (Hcache & Hkeys & _).
  exact Hkeys.
Defined.

(** ** The refresh loop *)

Lemma refresh_cycle_trace : forall hdrs interval net st,
  trace (refresh_cycle hdrs interval net st)
  = (trace st
       ++ [LogInfo "Refreshing version cache..."]
       ++ emitted (get_versions_async hdrs net)
       ++ [match outcome (get_versions_async hdrs net) with
           | Ok snapshot => LogInfoDict "Cache updated: " snapshot
           | Raise e => LogError "Error refreshing version cache: " e
           end;
           Sleep interval])%list.
Proof.
  intros. unfold refresh_cycle. cbn [trace].
  destruct (get_versions_async hdrs net) as [out [snapshot|e]];
    cbn [try_except bind ret emit emitted outcome fst snd app];
    rewrite ?app_nil_r, <- ?app_assoc; reflexivity.
Qed.

(** C6: when the aggregation of a cycle raises, the turn of the loop logs
    the error, leaves [version_cache] as it was, sleeps and goes on with the
    cycles that follow: a later cycle whose aggregation returns is
    published as usual. *)
Theorem failed_cycle_keeps_cache_and_loop :
  forall hdrs interval net st out e,
    get_versions_async hdrs net = (out, Raise e) ->
    version_cache (refresh_cycle hdrs interval net st) = version_cache st
    /\ trace (refresh_cycle hdrs interval net st)
       = (trace st
            ++ [LogInfo "Refreshing version cache..."]
            ++ out
            ++ [LogError "Error refreshing version cache: " e; Sleep interval])%list
    /\ (forall later,
           refresh_versions hdrs interval (net :: later) st
           = refresh_versions hdrs interval later
               {| version_cache := version_cache st;
                  trace := trace (refresh_cycle hdrs interval net st) |})
    /\ (forall net' out' snapshot,
           get_versions_async hdrs net' = (out', Ok snapshot) ->
           version_cache (refresh_versions hdrs interval [net; net'] st) = snapshot).
Proof.
  intros hdrs interval net st out e Hagg.
  assert (Hcache : version_cache (refresh_cycle hdrs interval net st) = version_cache st)
    by (rewrite refresh_cycle_cache, Hagg; reflexivity).
  split; [exact Hcache|].
  split; [rewrite refresh_cycle_trace, Hagg; reflexivity|].
  split.
  - intros later. cbn [refresh_versions]. f_equal.
    rewrite <- Hcache. now destruct (refresh_cycle hdrs interval net st).
  - intros net' out' snapshot Hagg'. cbn [refresh_versions].
    rewrite refresh_cycle_cache, Hagg'. reflexivity.
Qed.

(** C6 on a cache that holds a snapshot when a garbled cycle comes. *)
Lemma garbled_cycle_keeps_cache :
  let st := refresh_cycle [] 1800 (fun _ => NoReply) initial_state in
  version_cache (refresh_cycle [] 1800 garbled st) = version_cache st
  /\ trace (refresh_cycle [] 1800 garbled st)
     = (trace st ++ [LogInfo "Refreshing version cache...";
                     LogError "Error refreshing version cache: " JSONDecodeError;
                     Sleep 1800])%list.
Proof.
  intros st.
  destruct (failed_cycle_keeps_cache_and_loop [] 1800%Z garbled st [] JSONDecodeError
              eq_refl) as (Hcache & Htrace & _).
  split; [exact Hcache | exact Htrace].
Defined.

(** ** Start-up and serving *)

Lemma json_all_the_things_reads : forall st,
  json_all_the_things st = ((version_cache st, 200%Z), st).
Proof. reflexivity. Qed.

(** While the main thread serves, the cache holds a full snapshot, and a
    warm-up is among the events that led there. *)
Lemma serving_invariant : forall hdrs interval evs p,
  run hdrs interval started evs p ->
  main_thread p = Serving ->
  keys (version_cache (app p)) = keys sources /\ exists net, In (WarmUp net) evs.
Proof.
  intros hdrs interval evs p Hrun.
  remember started as p0 eqn:Hstart.
  induction Hrun as [p0|p0 evs q ev r Hrun IH Hstep]; intros Hserving.
  - subst p0. discriminate Hserving.
  - specialize (IH Hstart).
    destruct Hstep as [q net Halive | q net out snapshot Hmain Hagg
                      | q net out e Hmain Hagg | q Hmain | q Hmain];
      cbn [main_thread app] in *.
    + destruct (IH Hserving) as [Hkeys [net0 Hin]]. split.
      * now apply refresh_cycle_keeps_keys.
      * exists net0. apply in_or_app. now left.
    + split.
      * cbn [version_cache]. exact (aggregate_keys _ _ _ _ Hagg).
      * exists net. apply in_or_app. right. now left.
    + discriminate Hserving.
    + destruct (IH Hmain) as [Hkeys [net0 Hin]]. split; [exact Hkeys|].
      exists net0. apply in_or_app. now left.
    + destruct (IH Hmain) as [Hkeys [net0 Hin]]. split; [exact Hkeys|].
      exists net0. apply in_or_app. now left.
Qed.

(** A page drawn from a cache with every registered key shows, for each
    field, the cached value of its key. *)
Lemma page_of_full_cache : forall st var key,
  keys (version_cache st) = keys sources ->
  In (var, key) page_fields ->
  exists v, lookup key (version_cache st) = Some v
            /\ lookup var (fst (curl_all_the_things st)) = Some v.
Proof.
  intros st var key Hkeys Hin.
  assert (Hfound : forall k, In k (keys sources) ->
                             exists v, lookup k (version_cache st) = Some v)
    by (intros k Hk; apply lookup_in_keys; now rewrite Hkeys).
  unfold curl_all_the_things, cache_get. cbn [fst].
  simpl in Hin.
  repeat (destruct Hin as [Hin|Hin];
          [injection Hin as <- <-;
           match goal with
           | |- exists v, lookup ?k _ = Some v /\ _ =>
               destruct (Hfound k) as [v Hv]; [simpl; tauto|];
               exists v; split; [exact Hv | simpl; now rewrite Hv]
           end|]).
  contradiction.
Qed.

(** C8: in the process started as a script, whatever the background thread
    did meanwhile, a page is served only after the warm-up has returned and
    been assigned to [version_cache]; the cache then holds every registered
    key, so each field of the page shows the cached value of its key, a
    version or a degraded answer of the fetcher, and never the default
    [loading...] of a missing key. *)
Theorem page_is_served_from_a_full_cache :
  forall hdrs interval evs p context q,
    run hdrs interval started evs p ->
    step hdrs interval p (GetPage context) q ->
    (exists net, In (WarmUp net) evs)
    /\ keys (version_cache (app p)) = keys sources
    /\ (forall var key,
           In (var, key) page_fields ->
           exists v, lookup key (version_cache (app p)) = Some v
                     /\ lookup var context = Some v).
Proof.
  intros hdrs interval evs p context q Hrun Hstep.
  inversion Hstep as [| | | |p' Hmain Hctx Hq]; subst.
  destruct (serving_invariant _ _ _ _ Hrun Hmain) as [Hkeys Hwarm].
  split; [exact Hwarm|]. split; [exact Hkeys|].
  intros var key Hin. now apply page_of_full_cache.
Qed.

(** C8 on a start during which no server is reached: the first page shows
    the degraded answers. *)
Lemma first_page_after_offline_warm_up :
  (exists net, In (WarmUp net) [WarmUp unreachable])
  /\ keys (version_cache (app warmed_up_offline)) = keys sources
  /\ (forall var key,
         In (var, key) page_fields ->
         exists v, lookup key (version_cache (app warmed_up_offline)) = Some v
                   /\ lookup var (fst (curl_all_the_things (app warmed_up_offline))) = Some v).
Proof.
  apply (page_is_served_from_a_full_cache [] 1800%Z [WarmUp unreachable] warmed_up_offline
           (fst (curl_all_the_things (app warmed_up_offline)))
           {| app := snd (curl_all_the_things (app warmed_up_offline));
              main_thread := Serving |}).
  - apply (run_then [] 1800%Z started [] started (WarmUp unreachable) warmed_up_offline
             (run_done [] 1800%Z started)).
    apply (step_warm_up [] 1800%Z started unreachable
             (emitted (get_versions_async [] unreachable))
             (version_cache (app warmed_up_offline))); reflexivity.
  - apply step_get_page. reflexivity.
Defined.

(** C9: the JSON route returns the cache and leaves the module state as it
    found it, so a second read right after the first returns the same
    mapping; the same holds across anything that does not assign
    [version_cache], a refresh cycle that failed included, and in a run of
    the process a read is a step that changes nothing. *)
Theorem reads_are_idempotent : forall st,
  snd (json_all_the_things st) = st
  /\ fst (json_all_the_things (snd (json_all_the_things st))) = fst (json_all_the_things st)
  /\ fst (fst (json_all_the_things st)) = version_cache st
  /\ (forall st',
         version_cache st' = version_cache st ->
         fst (json_all_the_things st') = fst (json_all_the_things st))
  /\ (forall hdrs interval net out e,
         get_versions_async hdrs net = (out, Raise e) ->
         fst (json_all_the_things (refresh_cycle hdrs interval net st))
         = fst (json_all_the_things st))
  /\ (forall hdrs interval p payload q,
         app p = st ->
         step hdrs interval p (GetJson payload) q ->
         q = p /\ payload = (version_cache st, 200%Z)).
Proof.
  intros st. repeat match goal with |- _ /\ _ => split end; try reflexivity.
  - intros st' Hsame. rewrite !json_all_the_things_reads. cbn [fst]. now rewrite Hsame.
  - intros hdrs interval net out e Hagg. rewrite !json_all_the_things_reads. cbn [fst].
    rewrite refresh_cycle_cache, Hagg. reflexivity.
  - intros hdrs interval p payload q Happ Hstep.
    inversion Hstep as [| | |p' Hmain Hpayload Hq|]; subst.
    split; [|reflexivity].
    destruct p as [a m]; cbn [app main_thread json_all_the_things snd] in *.
    now rewrite Hmain.
Qed.

(** C9 on the cache left by an offline warm-up, read twice with a garbled
    refresh cycle in between. *)
Lemma reads_around_a_failed_cycle :
  let st := app warmed_up_offline in
  fst (json_all_the_things (refresh_cycle [] 1800 garbled (snd (json_all_the_things st))))
  = fst (json_all_the_things st).
Proof.
  intros st.
  destruct (reads_are_idempotent st) as (Hsame & _ & _ & _ & Hfailed & _).
  rewrite Hsame.
  exact (Hfailed [] 1800%Z garbled [] JSONDecodeError eq_refl).
Defined.

(** ** The bearer token *)

(** Every request of a client carries the headers the client was built
    with, whichever fetcher sends it. *)
Lemma request_carries_client_headers : forall client u t,
  headers (request_of client u t) = client_headers client.
Proof. reflexivity. Qed.

(** C7 evaluated on the code: [get_versions_async] builds its one client
    with [HEADERS], so with a token set the [Authorization] header goes out
    on the requests of the channel fetcher and of the registry-tag fetcher
    as well.  Servers that answer only to a request carrying the token are
    answered to by all eleven fetchers, on all three hosts; without a token
    no request carries the header and all eleven are turned away. *)
Theorem bearer_token_goes_to_every_host :
  (forall c token channel net,
      lookup "Authorization"
        (headers (request_of {| client_headers := HEADERS (Some (String c token));
                                network := net |}
                    (channel_url channel) 10))
      = Some ("Bearer " ++ String c token))
  /\ (forall c token repo name_filter net,
         lookup "Authorization"
           (headers (request_of {| client_headers := HEADERS (Some (String c token));
                                   network := net |}
                       (dockerhub_url repo name_filter) 10))
         = Some ("Bearer " ++ String c token))
  /\ outcome (fetch_channel_version
                {| client_headers := HEADERS (Some "s3cr3t");
                   network := bearer_only "Bearer s3cr3t" |} "rke2")
     = Ok (PStr "v1.31.2")
  /\ outcome (fetch_dockerhub_tags
                {| client_headers := HEADERS (Some "s3cr3t");
                   network := bearer_only "Bearer s3cr3t" |} "openstorage/stork" "25")
     = Ok (PStr "25.2.0")
  /\ outcome (get_versions_async (HEADERS (Some "s3cr3t")) (bearer_only "Bearer s3cr3t"))
     = Ok [("rancher", PStr "v2.9.1");
           ("rke2-stable", PStr "v1.31.2");
           ("k3s-stable", PStr "v1.31.2");
           ("longhorn", PStr "v2.9.1");
           ("cert-manager", PStr "v2.9.1");
           ("harvester", PStr "v2.9.1");
           ("hauler", PStr "v2.9.1");
           ("portworx", PStr "25.2.0");
           ("px_oper", PStr "25.2.0");
           ("stork", PStr "25.2.0");
           ("pxenterprise", PStr "25.2.0")]
  /\ HEADERS None = []
  /\ HEADERS (Some EmptyString) = []
  /\ outcome (get_versions_async (HEADERS None) (bearer_only "Bearer s3cr3t"))
     = Ok [("rancher", PStr "error fetching release");
           ("rke2-stable", PStr "upstream server issue");
           ("k3s-stable", PStr "upstream server issue");
           ("longhorn", PStr "error fetching release");
           ("cert-manager", PStr "error fetching release");
           ("harvester", PStr "error fetching release");
           ("hauler", PStr "error fetching release");
           ("portworx", PStr "error fetching tags");
           ("px_oper", PStr "error fetching tags");
           ("stork", PStr "error fetching tags");
           ("pxenterprise", PStr "error fetching tags")].
Proof.
  split; [intros; rewrite request_carries_client_headers; reflexivity|].
  split; [intros; rewrite request_carries_client_headers; reflexivity|].
  repeat split; vm_compute; reflexivity.
Qed.

(** ** Exceptions that leave the fetchers

    The [except] clauses name classes; an exception of another class goes
    through the fetcher and through [gather], and is caught by the refresh
    loop only. *)
Lemma exceptions_not_absorbed :
  outcome (fetch_github_release (always (Reply 200 None)) "rancher/rancher")
  = Raise JSONDecodeError
  /\ outcome (fetch_github_release (always (Reply 200 (Some (PList [])))) "rancher/rancher")
     = Raise AttributeError
  /\ outcome (fetch_channel_version (always (Reply 200 (Some (PDict [("data", PNone)])))) "k3s")
     = Raise TypeError
  /\ outcome (fetch_channel_version (always (Reply 200 (Some (PList [])))) "k3s")
     = Raise TypeError
  /\ outcome (fetch_dockerhub_tags (always (Reply 200 (Some (PList [])))) "openstorage/stork" "25")
     = Raise AttributeError
  /\ outcome (fetch_dockerhub_tags
                (always (Reply 200 (Some (PDict [("results", PList [PDict [("name", PInt 7)]])]))))
                "openstorage/stork" "25")
     = Raise AttributeError
  /\ outcome (fetch_dockerhub_tags
                (always (Reply 200 (Some (tags_body
                   [String "1" (String (ascii_of_nat 178) EmptyString)]))))
                "openstorage/stork" "25")
     = Raise ValueError
  /\ outcome (get_versions_async [] garbled) = Raise JSONDecodeError.
Proof. repeat split; reflexivity. Qed.

(** * Further properties of the code *)

(** ** Text *)

Lemma append_assoc : forall a b c : string, ((a ++ b) ++ c = a ++ (b ++ c))%string.
Proof. induction a as [|x a IH]; intros; simpl; [reflexivity | now rewrite IH]. Qed.

Lemma prefix_iff : forall needle hay,
  String.prefix needle hay = true <-> exists post, hay = needle ++ post.
Proof.
  induction needle as [|a needle IH]; intros hay.
  - destruct hay; simpl; split; eauto.
  - destruct hay as [|b hay]; simpl.
    + split; [discriminate | intros [post H]; discriminate].
    + destruct (ascii_dec a b) as [->|Hne].
      * rewrite IH. split; intros [post H]; exists post; [now rewrite H | now injection H].
      * split; [discriminate | intros [post H]; congruence].
Qed.

(** [needle in hay] holds exactly of the contiguous substrings. *)
Lemma contains_iff : forall needle hay,
  contains needle hay = true <-> exists pre post, hay = pre ++ needle ++ post.
Proof.
  intros needle hay. induction hay as [|c hay IH].
  - cbn [contains]. rewrite orb_false_r, prefix_iff. split.
    + intros [post H]. exists EmptyString, post. exact H.
    + intros [[|d pre] [post H]]; [exists post; exact H | discriminate].
  - cbn [contains]. rewrite orb_true_iff, prefix_iff, IH. split.
    + intros [[post H]|[pre [post H]]].
      * exists EmptyString, post. exact H.
      * exists (String c pre), post. simpl. now rewrite H.
    + intros [[|d pre] [post H]].
      * left. exists post. exact H.
      * right. injection H as _ H. exists pre, post. exact H.
Qed.

Lemma lower_char_idempotent : forall c, lower_char (lower_char c) = lower_char c.
Proof. intros [[] [] [] [] [] [] [] []]; reflexivity. Qed.

Lemma lower_idempotent : forall s, lower (lower s) = lower s.
Proof.
  induction s as [|c s IH]; simpl; [reflexivity|].
  now rewrite lower_char_idempotent, IH.
Qed.

Lemma lower_append : forall a b, lower (a ++ b) = lower a ++ lower b.
Proof. induction a as [|c a IH]; intros; simpl; [reflexivity | now rewrite IH]. Qed.

Lemma has_excluded_iff : forall name,
  has_excluded name = true
  <-> exists ex pre post, In ex excluded /\ lower name = pre ++ ex ++ post.
Proof.
  intros name. unfold has_excluded. rewrite existsb_exists. split.
  - intros [ex [Hin Hc]]. apply contains_iff in Hc. destruct Hc as [pre [post H]].
    exists ex, pre, post. split; assumption.
  - intros [ex [pre [post [Hin H]]]]. exists ex. split; [exact Hin|].
    apply contains_iff. exists pre, post. exact H.
Qed.

(** X3: the exclusion test of the comprehension, [any(ex in name.lower()
    for ex in excluded)], holds of a tag name exactly when one of [ppc],
    [dev], [beta], [ea] occurs somewhere inside its lower-cased form; so
    the letter case of the name does not matter, and the test holds of
    every name built around a name of which it holds. *)
Theorem exclusion_is_by_substring :
  (forall name,
      has_excluded name = true
      <-> exists ex pre post, In ex excluded /\ lower name = pre ++ ex ++ post)
  /\ (forall name, has_excluded (lower name) = has_excluded name)
  /\ (forall name before after,
         has_excluded name = true -> has_excluded (before ++ name ++ after) = true).
Proof.
  split; [exact has_excluded_iff|]. split.
  - intros name. unfold has_excluded. now rewrite lower_idempotent.
  - intros name before after H.
    apply has_excluded_iff in H. destruct H as [ex [pre [post [Hin H]]]].
    apply has_excluded_iff. exists ex, (lower before ++ pre), (post ++ lower after).
    split; [exact Hin|].
    rewrite !lower_append, H, !append_assoc. reflexivity.
Qed.

(** X3 on names of the registry: the word may sit anywhere and in any case. *)
Lemma exclusion_examples :
  has_excluded "bearer-1.0" = true /\ has_excluded "x-3.2.0-EA-y" = true.
Proof.
  destruct exclusion_is_by_substring as (Hiff & _ & Hinside).
  split.
  - apply Hiff. exists "ea", "b", "rer-1.0". split; [simpl; tauto | reflexivity].
  - apply (Hinside "3.2.0-EA" "x-" "-y"). reflexivity.
Defined.

(** ** Version keys *)

Lemma split_not_nil : forall sep s, split sep s <> [].
Proof.
  intros sep s. destruct s as [|c s]; simpl; [discriminate|].
  destruct (Ascii.eqb c sep); [discriminate|].
  destruct (split sep s); discriminate.
Qed.

Lemma split_length : forall sep s, length (split sep s) = S (occurrences sep s).
Proof.
  intros sep. induction s as [|c s IH]; simpl; [reflexivity|].
  destruct (Ascii.eqb c sep); simpl; [now rewrite IH|].
  destruct (split sep s) as [|part parts] eqn:Hs; [now destruct (split_not_nil sep s)|].
  exact IH.
Qed.

(** Dropping characters other than the separator commutes with splitting. *)
Lemma split_filter : forall keep sep s,
  keep sep = true ->
  split sep (filter_chars keep s) = map (filter_chars keep) (split sep s).
Proof.
  intros keep sep s Hsep. induction s as [|c s IH]; simpl; [reflexivity|].
  destruct (Ascii.eqb_spec c sep) as [->|Hne].
  - rewrite Hsep. simpl. rewrite Ascii.eqb_refl. now rewrite IH.
  - destruct (split sep s) as [|part parts] eqn:Hs; [now destruct (split_not_nil sep s)|].
    destruct (keep c) eqn:Hc; simpl.
    + destruct (Ascii.eqb_spec c sep); [contradiction|].
      rewrite IH. simpl. now rewrite Hc.
    + rewrite IH. simpl. now rewrite Hc.
Qed.

Lemma filter_chars_twice : forall (p q : ascii -> bool) s,
  (forall c, p c = true -> q c = true) ->
  filter_chars p (filter_chars q s) = filter_chars p s.
Proof.
  intros p q s Hpq. induction s as [|c s IH]; simpl; [reflexivity|].
  destruct (q c) eqn:Hq; simpl.
  - destruct (p c); now rewrite IH.
  - destruct (p c) eqn:Hp; [rewrite (Hpq c Hp) in Hq; discriminate | exact IH].
Qed.

Lemma parse_parts_map : forall (f : string -> string) parts,
  (forall part, Version.parse_part (f part) = Version.parse_part part) ->
  Version.parse_parts (map f parts) = Version.parse_parts parts.
Proof.
  intros f parts Hf. induction parts as [|part parts IH]; [reflexivity|].
  cbn [map Version.parse_parts]. now rewrite Hf, IH.
Qed.

(** X4: when [parse_version] returns, the key has one component for each
    dot-separated part of the tag, so it is never empty.  Key and
    [ValueError] alike are read from the dots and from the characters that
    [str.isdigit] accepts: every other character can be deleted without
    changing what [parse_version] does. *)
Theorem version_key_reads_digits_and_dots : forall tag,
  (forall key,
      Version.parse_version tag = Ok key ->
      length key = S (occurrences "." tag) /\ key <> [])
  /\ Version.parse_version (filter_chars digit_or_dot tag) = Version.parse_version tag.
Proof.
  intros tag. split.
  - intros key H. rewrite VersionFacts.parse_version_cases in H.
    destruct (Version.has_key tag); [|discriminate H]. injection H as <-.
    split; [rewrite length_map; apply split_length|].
    intros H. apply map_eq_nil in H. exact (split_not_nil _ _ H).
  - unfold Version.parse_version.
    rewrite split_filter by reflexivity. apply parse_parts_map.
    intros part. unfold Version.parse_part.
    rewrite filter_chars_twice; [reflexivity|].
    intros c Hc. unfold digit_or_dot. now rewrite Hc.
Qed.

(** X4 on a tag with letters and a hyphen. *)
Lemma version_key_example :
  length [3%N; 2%N; 0%N] = S (occurrences "." "v3.2.0-rc") /\ [3%N; 2%N; 0%N] <> [].
Proof.
  apply (proj1 (version_key_reads_digits_and_dots "v3.2.0-rc") [3%N; 2%N; 0%N]).
  reflexivity.
Defined.

Lemma int_of_digits_from_app : forall a b acc,
  int_of_digits_from acc (a ++ b) = int_of_digits_from (int_of_digits_from acc a) b.
Proof. induction a as [|c a IH]; intros; simpl; [reflexivity | apply IH]. Qed.

Lemma filter_chars_app : forall p a b,
  filter_chars p (a ++ b) = filter_chars p a ++ filter_chars p b.
Proof.
  intros p. induction a as [|c a IH]; intros; simpl; [reflexivity|].
  destruct (p c); simpl; now rewrite IH.
Qed.

Lemma string_length_app : forall a b,
  String.length (a ++ b) = (String.length a + String.length b)%nat.
Proof. induction a as [|c a IH]; intros; simpl; [reflexivity | now rewrite IH]. Qed.

Lemma is_empty_app : forall a b, is_empty (a ++ b) = is_empty a && is_empty b.
Proof. intros [|c a] b; reflexivity. Qed.

Lemma decimal_is_digit : forall c, is_decimal c = true -> isdigit c = true.
Proof. intros c H. unfold isdigit. now rewrite H. Qed.

(** X5: a component of a tag is read as the decimal number written by its
    digits.  Appending a decimal digit multiplies the number by ten and adds
    the digit, as long as [int] takes the length; a character that
    [str.isdigit] rejects changes nothing, in front or at the end, nor does
    a zero in front, so [007], [7] and [v7] all give 7.  A superscript digit
    anywhere in the component, or more than 4300 digits, leaves it without
    a number: [int] raises [ValueError]. *)
Theorem component_is_decimal : forall part,
  (forall c n,
      is_decimal c = true ->
      (String.length (filter_chars isdigit part) < 4300)%nat ->
      Version.parse_part part = Ok n ->
      Version.parse_part (part ++ String c EmptyString)
      = Ok (10 * n + (N_of_ascii c - 48))%N)
  /\ (forall c, isdigit c = false -> Version.parse_part (String c part) = Version.parse_part part)
  /\ (forall c, isdigit c = false ->
                Version.parse_part (part ++ String c EmptyString) = Version.parse_part part)
  /\ ((String.length (filter_chars isdigit part) < 4300)%nat ->
      Version.parse_part (String "0" part) = Version.parse_part part)
  /\ (forall c rest,
         isdigit c = true -> is_decimal c = false ->
         Version.parse_part (part ++ String c rest) = Raise ValueError)
  /\ ((4300 < String.length (filter_chars isdigit part))%nat ->
      Version.parse_part part = Raise ValueError).
Proof.
  intros part. repeat match goal with |- _ /\ _ => split end.
  - intros c n Hc Hlen Hn.
    rewrite VersionFacts.parse_part_cases in *. unfold Version.part_has_key in *.
    rewrite filter_chars_app. cbn [filter_chars]. rewrite (decimal_is_digit c Hc).
    rewrite filter_chars_app, is_empty_app, string_length_app. cbn [filter_chars String.length].
    rewrite Hc. cbn [negb is_empty].
    destruct (is_empty (filter_chars (fun c => negb (is_decimal c))
                          (filter_chars isdigit part))); [|discriminate Hn].
    cbn [andb] in *.
    destruct (Nat.leb_spec (String.length (filter_chars isdigit part))
                int_max_str_digits) as [_|Hbad]; [|discriminate Hn].
    injection Hn as <-.
    destruct (Nat.leb_spec (String.length (filter_chars isdigit part) + 1)
                int_max_str_digits) as [_|Hbad];
      [|unfold int_max_str_digits in Hbad; lia].
    unfold int_of_digits. rewrite int_of_digits_from_app. reflexivity.
  - intros c Hc. unfold Version.parse_part. cbn [filter_chars]. now rewrite Hc.
  - intros c Hc. unfold Version.parse_part. rewrite filter_chars_app. cbn [filter_chars].
    rewrite Hc.
    replace (filter_chars isdigit part ++ EmptyString) with (filter_chars isdigit part);
      [reflexivity|].
    induction (filter_chars isdigit part) as [|d ds IH]; simpl; [reflexivity | now rewrite <- IH].
  - intros Hlen.
    rewrite !VersionFacts.parse_part_cases. unfold Version.part_has_key.
    cbn [filter_chars]. replace (isdigit "0") with true by reflexivity.
    cbn [filter_chars String.length]. replace (negb (is_decimal "0")) with false by reflexivity.
    destruct (is_empty (filter_chars (fun c => negb (is_decimal c))
                          (filter_chars isdigit part))); [|reflexivity].
    cbn [andb].
    destruct (Nat.leb_spec (S (String.length (filter_chars isdigit part)))
                int_max_str_digits) as [_|Hbad];
      [|unfold int_max_str_digits in Hbad; lia].
    destruct (Nat.leb_spec (String.length (filter_chars isdigit part))
                int_max_str_digits) as [_|Hbad];
      [|unfold int_max_str_digits in Hbad; lia].
    reflexivity.
  - intros c rest Hc Hnd.
    rewrite VersionFacts.parse_part_cases. unfold Version.part_has_key.
    rewrite filter_chars_app. cbn [filter_chars]. rewrite Hc.
    rewrite filter_chars_app, is_empty_app. cbn [filter_chars]. rewrite Hnd.
    cbn [negb is_empty]. now rewrite andb_false_r.
  - intros Hlen.
    rewrite VersionFacts.parse_part_cases. unfold Version.part_has_key.
    destruct (Nat.leb_spec (String.length (filter_chars isdigit part))
                int_max_str_digits) as [Hok|_];
      [unfold int_max_str_digits in Hok; lia|].
    now rewrite andb_false_r.
Qed.

(** X5 on the components [10] and [1rc]. *)
Lemma component_examples :
  Version.parse_part "10" = Ok 10%N /\ Version.parse_part "1rc" = Ok 1%N.
Proof.
  split.
  - apply (proj1 (component_is_decimal "1") "0"%char 1%N); [reflexivity | | reflexivity].
    apply Nat.ltb_lt. reflexivity.
  - exact (eq_trans
             (proj1 (proj2 (proj2 (component_is_decimal "1r"))) "c"%char eq_refl)
             (eq_trans
                (proj1 (proj2 (proj2 (component_is_decimal "1"))) "r"%char eq_refl)
                eq_refl)).
Defined.

(** ** The choice of the greatest tag *)

Lemma greatest_is_greatest {A : Type} (key : A -> list N) : forall items best,
  Version.greatest key items = Some best ->
  In best items /\ forall t, In t items -> Version.tuple_le (key t) (key best).
Proof.
  intros items best H.
  destruct (VersionFacts.greatest_spec key items best H)
    as (pre & post & Heq & Hpre & Hpost).
  split; [rewrite Heq; apply in_or_app; right; now left|].
  intros t Ht. rewrite Heq in Ht. apply in_app_or in Ht.
  destruct Ht as [Ht|[<-|Ht]].
  - unfold Version.tuple_le. rewrite (Hpre t Ht). discriminate.
  - unfold Version.tuple_le. rewrite VersionFacts.tuple_compare_refl. discriminate.
  - apply VersionFacts.tuple_gt_false_le. now apply Hpost.
Qed.

Lemma tuple_le_antisym : forall a b,
  Version.tuple_le a b -> Version.tuple_le b a -> a = b.
Proof.
  unfold Version.tuple_le. intros a b Hab Hba.
  apply VersionFacts.tuple_compare_eq.
  rewrite (VersionFacts.tuple_compare_antisym a b) in Hba.
  destruct (Version.tuple_compare a b); simpl in *; congruence.
Qed.

Lemma same_key_same_item {A K : Type} (key : A -> K) : forall items a b,
  NoDup (map key items) -> In a items -> In b items -> key a = key b -> a = b.
Proof.
  induction items as [|x items IH]; intros a b Hnodup Ha Hb Hkey; [destruct Ha|].
  simpl in Hnodup. inversion Hnodup as [|k ks Hnotin Hrest]; subst.
  destruct Ha as [<-|Ha], Hb as [<-|Hb].
  - reflexivity.
  - exfalso. apply Hnotin. rewrite Hkey. now apply in_map.
  - exfalso. apply Hnotin. rewrite <- Hkey. now apply in_map.
  - now apply IH.
Qed.

(** With a key for every item, the order of the items does not change the
    choice among pairwise different keys. *)
Lemma greatest_ignores_order {A : Type} (key : A -> list N) : forall items items',
  Permutation items items' ->
  (forall a b, In a items -> In b items -> key a = key b -> a = b) ->
  Version.greatest key items = Version.greatest key items'.
Proof.
  intros items items' Hperm Hinj.
  destruct (Version.greatest key items) as [best|] eqn:Hbest.
  - destruct (Version.greatest key items') as [best'|] eqn:Hbest'.
    + destruct (greatest_is_greatest _ _ _ Hbest) as [Hin Hmax].
      destruct (greatest_is_greatest _ _ _ Hbest') as [Hin' Hmax'].
      pose proof (Permutation_in _ (Permutation_sym Hperm) Hin') as Hin2.
      f_equal. apply Hinj; auto.
      apply tuple_le_antisym.
      * apply Hmax'. exact (Permutation_in _ Hperm Hin).
      * now apply Hmax.
    + apply VersionFacts.greatest_none in Hbest'. subst items'.
      apply Permutation_sym, Permutation_nil in Hperm.
      subst items. discriminate Hbest.
  - apply VersionFacts.greatest_none in Hbest. subst items.
    apply Permutation_nil in Hperm. now subst items'.
Qed.

Lemma forallb_false_exists {A : Type} (p : A -> bool) : forall l,
  forallb p l = false -> exists x, In x l /\ p x = false.
Proof.
  induction l as [|x l IH]; simpl; intros H; [discriminate|].
  destruct (p x) eqn:Hx.
  - destruct (IH H) as (y & Hin & Hy). exists y. auto.
  - exists x. auto.
Qed.

(** X6: when the tags of a listing have pairwise different version keys,
    what [max] does, the tag it chooses or the [ValueError] it raises, does
    not depend on the order in which the registry lists them. *)
Theorem greatest_tag_ignores_listing_order : forall names names',
  Permutation names names' ->
  NoDup (map Version.parse_version names) ->
  Version.max_by Version.parse_version names = Version.max_by Version.parse_version names'.
Proof.
  intros names names' Hperm Hnodup.
  destruct (forallb Version.has_key names) eqn:Hall.
  - rewrite forallb_forall in Hall.
    assert (Hkeys : forall n, In n names ->
                              Version.parse_version n
                              = Ok (Version.key_of Version.parse_version n)).
    { intros n Hin. unfold Version.key_of.
      rewrite VersionFacts.parse_version_cases, (Hall n Hin). reflexivity. }
    rewrite !VersionFacts.max_by_all_keys.
    + rewrite (greatest_ignores_order _ names names' Hperm); [reflexivity|].
      intros a b Ha Hb Hkey.
      apply (same_key_same_item Version.parse_version names); auto.
      now rewrite (Hkeys a Ha), (Hkeys b Hb), Hkey.
    + intros t Ht. eexists. apply Hkeys.
      exact (Permutation_in _ (Permutation_sym Hperm) Ht).
    + intros t Ht. eexists. now apply Hkeys.
  - assert (Hbad : exists n, In n names /\ forall k, Version.parse_version n <> Ok k).
    { destruct (forallb_false_exists _ names Hall) as (n & Hin & Hn).
      exists n. split; [exact Hin|].
      intros k Hk. rewrite VersionFacts.parse_version_cases, Hn in Hk. discriminate Hk. }
    rewrite !VersionFacts.max_by_raises; try exact VersionFacts.parse_version_raises;
      [reflexivity | | exact Hbad].
    destruct Hbad as (n & Hin & Hn). exists n. split; [|exact Hn].
    exact (Permutation_in _ Hperm Hin).
Qed.

(** X6 on a listing of three tags and its reverse. *)
Lemma greatest_tag_of_reversed_listing :
  Version.max_by Version.parse_version ["3.1.0"; "3.10.0"; "3.2.0"]
  = Version.max_by Version.parse_version ["3.2.0"; "3.10.0"; "3.1.0"].
Proof.
  apply greatest_tag_ignores_listing_order.
  - apply (Permutation_rev ["3.1.0"; "3.10.0"; "3.2.0"]).
  - repeat (constructor; [simpl; intuition discriminate|]). constructor.
Defined.

(** ** Every way a fetcher can end *)

Ltac run_py :=
  cbn [bind try_except ret raise emit call json status decoded app get_method
       subscript_str subscript_zero len iterate].

Lemma github_cases : forall client repo,
  (exists e, (e = RequestError \/ e = HTTPStatusError)
             /\ fetch_github_release client repo
                = ([LogError ("GitHub API error for " ++ repo ++ ": ") e],
                   Ok (PStr "error fetching release")))
  \/ (exists e, (e = JSONDecodeError \/ e = AttributeError)
                /\ fetch_github_release client repo = ([], Raise e))
  \/ fetch_github_release client repo = ([], Ok (PStr "no release found"))
  \/ (exists v, truthy v = true /\ fetch_github_release client repo = ([], Ok v)).
Proof.
  intros client repo. unfold fetch_github_release, client_get, raise_for_status.
  destruct (network client (request_of client (github_url repo) 10)) as [|code body].
  { left. exists RequestError. split; [now left | reflexivity]. }
  run_py.
  destruct ((200 <=? code) && (code <=? 299))%Z; run_py;
    [|left; exists HTTPStatusError; split; [now right | reflexivity]].
  destruct body as [data|]; run_py;
    [|right; left; exists JSONDecodeError; split; [now left | reflexivity]].
  destruct data as [| | | | |entries]; run_py;
    try (right; left; exists AttributeError; split; [now right | reflexivity]).
  destruct (lookup "tag_name" entries) as [v|]; run_py;
    [|right; right; left; reflexivity].
  destruct (truthy v) eqn:Hv.
  - right; right; right. exists v. split; [exact Hv | reflexivity].
  - right; right; left. reflexivity.
Qed.

Lemma channel_cases : forall client channel,
  (exists e, absorbed e = true
             /\ fetch_channel_version client channel
                = ([LogError ("Channel API error for " ++ channel ++ ": ") e],
                   Ok (PStr "upstream server issue")))
  \/ fetch_channel_version client channel = ([], Raise TypeError)
  \/ (exists latest,
         fetch_channel_version client channel
         = ([], Ok (PStr (partition_head "+" (remove_char dquote (dumps latest)))))).
Proof.
  intros client channel. unfold fetch_channel_version, client_get, raise_for_status.
  destruct (network client (request_of client (channel_url channel) 10)) as [|code body].
  { left. exists RequestError. split; reflexivity. }
  run_py.
  destruct ((200 <=? code) && (code <=? 299))%Z; run_py;
    [|left; exists HTTPStatusError; split; reflexivity].
  destruct body as [data|]; run_py; [|left; exists JSONDecodeError; split; reflexivity].
  destruct data as [| | | | |entries]; run_py; try (right; left; reflexivity).
  destruct (lookup "data" entries) as [releases|]; run_py;
    [|left; exists KeyError; split; reflexivity].
  destruct releases as [| | |s|items|inner]; run_py; try (right; left; reflexivity).
  - destruct s as [|c s]; run_py; [left; exists IndexError; split; reflexivity|].
    right; left; reflexivity.
  - destruct items as [|first rest]; run_py; [left; exists IndexError; split; reflexivity|].
    destruct first as [| | | | |fields]; run_py; try (right; left; reflexivity).
    destruct (lookup "latest" fields) as [latest|]; run_py;
      [|left; exists KeyError; split; reflexivity].
    right; right. exists latest. reflexivity.
  - left. exists KeyError. split; reflexivity.
Qed.

Lemma valid_tag_cases : forall t,
  valid_tag t = ([], Raise AttributeError)
  \/ valid_tag t = ([], Ok None)
  \/ (exists fields s,
         t = PDict fields /\ lookup "name" fields = Some (PStr s) /\ kept s = true
         /\ valid_tag t = ([], Ok (Some s))).
Proof.
  intros t. unfold valid_tag, get_method.
  destruct t as [| | | | |fields]; try (left; reflexivity).
  destruct (lookup "name" fields) as [name|] eqn:Hname; [|right; left; reflexivity].
  cbn [bind ret app].
  destruct name as [|b|z|s|items|inner]; cbn [truthy].
  - right; left; reflexivity.
  - destruct b; [left | right; left]; reflexivity.
  - destruct (negb (z =? 0)%Z); [left | right; left]; reflexivity.
  - destruct s as [|c s]; [right; left; reflexivity|].
    cbn [is_empty negb]. destruct (has_excluded (String c s)) eqn:Hx.
    + right; left; reflexivity.
    + right; right. exists fields, (String c s).
      repeat split; [exact Hname | unfold kept; now rewrite Hx].
  - destruct items; [right; left | left]; reflexivity.
  - destruct inner; [right; left | left]; reflexivity.
Qed.

(** The comprehension either raises [AttributeError] or keeps names that
    are listed, non-empty and free of the excluded words; it logs nothing. *)
Lemma valid_tags_cases : forall tags,
  valid_tags tags = ([], Raise AttributeError)
  \/ (exists names,
         valid_tags tags = ([], Ok names)
         /\ Forall (fun s => kept s = true
                             /\ exists fields, In (PDict fields) tags
                                               /\ lookup "name" fields = Some (PStr s))
                   names).
Proof.
  induction tags as [|t tags IH].
  - right. exists []. split; [reflexivity | constructor].
  - cbn [valid_tags].
    destruct (valid_tag_cases t) as [Ht|[Ht|(fields & s & -> & Hname & Hkept & Ht)]];
      rewrite Ht; cbn [bind ret app]; [left; reflexivity | |].
    + destruct IH as [IH|(names & IH & Hall)]; rewrite IH; cbn [bind ret app];
        [left; reflexivity|].
      right. exists names. split; [reflexivity|].
      eapply Forall_impl; [|exact Hall].
      intros s [Hk (fields & Hin & Hf)]. split; [exact Hk|].
      exists fields. split; [now right | exact Hf].
    + destruct IH as [IH|(names & IH & Hall)]; rewrite IH; cbn [bind ret app];
        [left; reflexivity|].
      right. exists (s :: names). split; [reflexivity|].
      constructor.
      * split; [exact Hkept|]. exists fields. split; [now left | exact Hname].
      * eapply Forall_impl; [|exact Hall].
        intros s' [Hk (fields' & Hin & Hf)]. split; [exact Hk|].
        exists fields'. split; [now right | exact Hf].
Qed.

Lemma max_scan_in {A : Type} (key : A -> result (list N)) : forall items best best_key m,
  Version.max_scan key best best_key items = Ok m -> In m (best :: items).
Proof.
  induction items as [|x items IH]; intros best best_key m H; cbn [Version.max_scan] in H.
  - injection H as <-. now left.
  - destruct (key x) as [k|e]; [|discriminate].
    destruct (Version.tuple_gt k best_key); apply IH in H; simpl in *; tauto.
Qed.

Lemma max_by_in {A : Type} (key : A -> result (list N)) : forall items best,
  Version.max_by key items = Ok best -> In best items.
Proof.
  intros [|x items] best H; cbn [Version.max_by] in H; [discriminate|].
  destruct (key x) as [k|e]; [|discriminate]. exact (max_scan_in _ _ _ _ _ H).
Qed.

Ltac listing tags code entries results :=
  let Hv := fresh "Hv" in
  let names := fresh "names" in
  let Hall := fresh "Hall" in
  let best := fresh "best" in
  let Hbest := fresh "Hbest" in
  let Hkept := fresh "Hkept" in
  let fields := fresh "fields" in
  let Hin := fresh "Hin" in
  let Hname := fresh "Hname" in
  let n0 := fresh "n" in
  let e0 := fresh "e" in
  destruct (valid_tags_cases tags) as [Hv|(names & Hv & Hall)]; rewrite Hv; run_py;
  [right; left; exists AttributeError; split; [now left | reflexivity]|];
  destruct names as [|n0 names]; run_py;
  [right; right; right; left; reflexivity|];
  destruct (Version.max_by Version.parse_version (n0 :: names)) as [best|e0] eqn:Hbest;
  run_py;
  [|apply VersionFacts.max_by_only_value_error in Hbest;
    [|exact VersionFacts.parse_version_raises];
    subst e0; right; left; exists ValueError; split; [now right; right | reflexivity]];
  right; right; right; right;
  apply max_by_in in Hbest; rewrite Forall_forall in Hall;
  destruct (Hall best Hbest) as [Hkept (fields & Hin & Hname)];
  exists code, entries, results, tags, fields, best;
  repeat split; try assumption; reflexivity.

Lemma dockerhub_cases : forall client repo name_filter,
  (exists e, absorbed e = true
             /\ fetch_dockerhub_tags client repo name_filter
                = ([LogError ("Docker Hub API error for " ++ repo ++ ": ") e],
                   Ok (PStr "error fetching tags")))
  \/ (exists e, (e = AttributeError \/ e = TypeError \/ e = ValueError)
                /\ fetch_dockerhub_tags client repo name_filter = ([], Raise e))
  \/ fetch_dockerhub_tags client repo name_filter = ([], Ok (PStr "no tags found"))
  \/ fetch_dockerhub_tags client repo name_filter = ([], Ok (PStr "no valid tags found"))
  \/ (exists code entries results tags fields s,
         network client (request_of client (dockerhub_url repo name_filter) 10)
         = Reply code (Some (PDict entries))
         /\ is_success code = true
         /\ lookup "results" entries = Some results
         /\ outcome (iterate results) = Ok tags
         /\ In (PDict fields) tags
         /\ lookup "name" fields = Some (PStr s)
         /\ kept s = true
         /\ fetch_dockerhub_tags client repo name_filter = ([], Ok (PStr s))).
Proof.
  intros client repo name_filter.
  unfold fetch_dockerhub_tags, client_get, raise_for_status, is_success.
  destruct (network client (request_of client (dockerhub_url repo name_filter) 10))
    as [|code body] eqn:Hsent.
  { left. exists RequestError. split; reflexivity. }
  run_py.
  destruct ((200 <=? code) && (code <=? 299))%Z eqn:Hcode; run_py;
    [|left; exists HTTPStatusError; split; reflexivity].
  destruct body as [data|]; run_py; [|left; exists JSONDecodeError; split; reflexivity].
  destruct data as [| | | | |entries]; run_py;
    try (right; left; exists AttributeError; split; [now left | reflexivity]).
  destruct (lookup "results" entries) as [results|] eqn:Hresults; run_py;
    [|right; right; left; reflexivity].
  destruct results as [|b|z|s|items|inner]; cbn [truthy]; run_py.
  - right; right; left; reflexivity.
  - destruct b; run_py;
      [right; left; exists TypeError; split; [now right; left | reflexivity]
      |right; right; left; reflexivity].
  - destruct (negb (z =? 0)%Z); run_py;
      [right; left; exists TypeError; split; [now right; left | reflexivity]
      |right; right; left; reflexivity].
  - destruct s as [|c s]; cbn [is_empty negb]; run_py; [right; right; left; reflexivity|].
    listing (chars (String c s)) code entries (PStr (String c s)).
  - destruct items as [|t items]; run_py; [right; right; left; reflexivity|].
    listing (t :: items) code entries (PList (t :: items)).
  - destruct inner as [|kv inner]; run_py; [right; right; left; reflexivity|].
    listing (map (fun kv : string * pyval => PStr (fst kv)) (kv :: inner))
            code entries (PDict (kv :: inner)).
Qed.



(** X2: a fetcher writes to the log at most one line, an error line naming
    its source, and only when it answers with its error sentinel; a fetcher
    that returns anything else, or that raises, leaves the log alone. *)
Theorem fetchers_log_only_with_their_sentinel : forall client ident name_filter,
  (emitted (fetch_github_release client ident) = []
   \/ exists e, fetch_github_release client ident
                = ([LogError ("GitHub API error for " ++ ident ++ ": ") e],
                   Ok (PStr "error fetching release")))
  /\ (emitted (fetch_channel_version client ident) = []
      \/ exists e, fetch_channel_version client ident
                   = ([LogError ("Channel API error for " ++ ident ++ ": ") e],
                      Ok (PStr "upstream server issue")))
  /\ (emitted (fetch_dockerhub_tags client ident name_filter) = []
      \/ exists e, fetch_dockerhub_tags client ident name_filter
                   = ([LogError ("Docker Hub API error for " ++ ident ++ ": ") e],
                      Ok (PStr "error fetching tags"))).
Proof.
  intros client ident name_filter. split; [|split].
  - destruct (github_cases client ident)
      as [(e & _ & Hf)|[(e & _ & Hf)|[Hf|(v & _ & Hf)]]]; rewrite Hf;
      [right; exists e; reflexivity | left; reflexivity ..].
  - destruct (channel_cases client ident) as [(e & _ & Hf)|[Hf|(latest & Hf)]]; rewrite Hf;
      [right; exists e; reflexivity | left; reflexivity ..].
  - destruct (dockerhub_cases client ident name_filter)
      as [(e & _ & Hf)|[(e & _ & Hf)|[Hf|[Hf|Hf]]]];
      [| | | |destruct Hf as (c & en & r & t & f & s & _ & _ & _ & _ & _ & _ & _ & Hf)];
      rewrite Hf; [right; exists e; reflexivity | left; reflexivity ..].
Qed.

(** X7: whatever the registry replies, an answer of the registry-tag fetcher
    is a string: one of its three sentinels, or the name of an entry that
    the reply lists, non-empty and free of the excluded words.  It never
    answers with a tag that the listing does not hold, nor with an excluded
    one. *)
Theorem registry_answer_is_sentinel_or_listed : forall client repo name_filter v,
  outcome (fetch_dockerhub_tags client repo name_filter) = Ok v ->
  exists s,
    v = PStr s
    /\ (s = "no tags found" \/ s = "no valid tags found" \/ s = "error fetching tags"
        \/ (is_empty s = false /\ has_excluded s = false
            /\ exists code entries results tags fields,
                 network client (request_of client (dockerhub_url repo name_filter) 10)
                 = Reply code (Some (PDict entries))
                 /\ lookup "results" entries = Some results
                 /\ outcome (iterate results) = Ok tags
                 /\ In (PDict fields) tags
                 /\ lookup "name" fields = Some (PStr s))).
Proof.
  intros client repo name_filter v H.
  destruct (dockerhub_cases client repo name_filter)
    as [(e & _ & Hf)|[(e & _ & Hf)|[Hf|[Hf|Hf]]]];
    [| | | |destruct Hf as (code & entries & results & tags & fields & s
                            & Hsent & _ & Hres & Hit & Hin & Hname & Hkept & Hf)];
    rewrite Hf in H; cbn in H; try discriminate H; injection H as <-.
  - exists "error fetching tags". split; [reflexivity | tauto].
  - exists "no tags found". split; [reflexivity | tauto].
  - exists "no valid tags found". split; [reflexivity | tauto].
  - exists s. split; [reflexivity|]. right; right; right.
    unfold kept in Hkept. apply andb_prop in Hkept. destruct Hkept as [He Hx].
    apply negb_true_iff in He. apply negb_true_iff in Hx.
    split; [exact He|]. split; [exact Hx|].
    exists code, entries, results, tags, fields. repeat split; assumption.
Qed.

(** X7 on a listing with an excluded tag that would have the greatest key. *)
Lemma registry_answer_example :
  exists s,
    PStr "25.2.0" = PStr s
    /\ (s = "no tags found" \/ s = "no valid tags found" \/ s = "error fetching tags"
        \/ (is_empty s = false /\ has_excluded s = false
            /\ exists code entries results tags fields,
                 network (always (Reply 200 (Some (tags_body ["25.2.0"; "25.3.0-beta"]))))
                   (request_of (always (Reply 200 (Some (tags_body ["25.2.0"; "25.3.0-beta"]))))
                      (dockerhub_url "openstorage/stork" "25") 10)
                 = Reply code (Some (PDict entries))
                 /\ lookup "results" entries = Some results
                 /\ outcome (iterate results) = Ok tags
                 /\ In (PDict fields) tags
                 /\ lookup "name" fields = Some (PStr s))).
Proof.
  apply (registry_answer_is_sentinel_or_listed
           (always (Reply 200 (Some (tags_body ["25.2.0"; "25.3.0-beta"]))))
           "openstorage/stork" "25" (PStr "25.2.0")).
  reflexivity.
Defined.

Lemma has_char_partition_head : forall c s, has_char c (partition_head c s) = false.
Proof.
  intros c. induction s as [|d s IH]; simpl; [reflexivity|].
  destruct (Ascii.eqb d c) eqn:Hd; simpl; [reflexivity|]. now rewrite Hd.
Qed.

Lemma has_char_partition_head_other : forall c d s,
  has_char d s = false -> has_char d (partition_head c s) = false.
Proof.
  intros c d. induction s as [|x s IH]; simpl; intros H; [reflexivity|].
  apply orb_false_iff in H. destruct H as [Hx Hs].
  destruct (Ascii.eqb x c); simpl; [reflexivity|]. now rewrite Hx, IH.
Qed.

Lemma has_char_remove_char : forall c s, has_char c (remove_char c s) = false.
Proof.
  intros c. unfold remove_char. induction s as [|d s IH]; simpl; [reflexivity|].
  destruct (Ascii.eqb d c) eqn:Hd; simpl; [exact IH|]. now rewrite Hd.
Qed.

(** X8: whatever the channel server replies, an answer of the channel
    fetcher is a string that holds neither a ['+'] nor a double quote. *)
Theorem channel_answer_has_no_plus_no_quote : forall client channel v,
  outcome (fetch_channel_version client channel) = Ok v ->
  exists s, v = PStr s /\ has_char "+" s = false /\ has_char dquote s = false.
Proof.
  intros client channel v H.
  destruct (channel_cases client channel) as [(e & _ & Hf)|[Hf|(latest & Hf)]];
    rewrite Hf in H; cbn in H; try discriminate H; injection H as <-.
  - exists "upstream server issue". repeat split; reflexivity.
  - eexists. split; [reflexivity|]. split.
    + apply has_char_partition_head.
    + apply has_char_partition_head_other, has_char_remove_char.
Qed.

(** X8 on a version whose text holds both characters. *)
Lemma channel_answer_example :
  exists s,
    PStr (String "v" (String "1" (String backslash EmptyString))) = PStr s
    /\ has_char "+" s = false /\ has_char dquote s = false.
Proof.
  apply (channel_answer_has_no_plus_no_quote
           (always (Reply 200 (Some (channel_body
                      (PStr (String "v" (String "1" (String dquote "+k3s1"))))))))
           "k3s").
  reflexivity.
Defined.

(** ** What a snapshot is made of *)

Lemma gather_outcomes {A : Type} : forall (tasks : list (Py A)) out xs,
  gather tasks = (out, Ok xs) -> Forall2 (fun t x => outcome t = Ok x) tasks xs.
Proof.
  induction tasks as [|[o [x|e]] tasks IH]; intros out xs H; cbn [gather] in H.
  - injection H as _ <-. constructor.
  - unfold bind at 1 in H.
    destruct (gather tasks) as [o' [xs'|e']]; cbn in H; [|discriminate].
    injection H as _ <-. constructor; [reflexivity | exact (IH o' xs' eq_refl)].
  - discriminate.
Qed.

Lemma gather_returns_iff {A : Type} : forall (tasks : list (Py A)),
  (exists out xs, gather tasks = (out, Ok xs))
  <-> Forall (fun t => exists x, outcome t = Ok x) tasks.
Proof.
  induction tasks as [|[o [x|e]] tasks IH]; cbn [gather].
  - split; [constructor | intros _; exists [], []; reflexivity].
  - split.
    + intros (out & xs & H). constructor; [exists x; reflexivity|].
      apply IH. unfold bind at 1 in H.
      destruct (gather tasks) as [o' [xs'|e']]; cbn in H; [eauto | discriminate].
    + intros H. inversion H as [|t ts _ Hrest]; subst.
      apply IH in Hrest. destruct Hrest as (o' & xs' & Hg).
      unfold bind at 1. rewrite Hg. cbn. eauto.
  - split.
    + intros (out & xs & H). discriminate H.
    + intros H. inversion H as [|t ts [v Hv] _]; subst. discriminate Hv.
Qed.

Lemma dict_set_new {V : Type} : forall (d : list (string * V)) k v,
  ~ In k (keys d) -> dict_set d k v = (d ++ [(k, v)])%list.
Proof.
  induction d as [|[k0 v0] d IH]; intros k v Hnew; simpl; [reflexivity|].
  destruct (String.eqb_spec k0 k) as [->|Hne].
  - exfalso. apply Hnew. now left.
  - f_equal. apply IH. intros Hin. apply Hnew. now right.
Qed.

Lemma fold_dict_set_new {V : Type} : forall (pairs d : list (string * V)),
  NoDup (keys d ++ map fst pairs)%list ->
  fold_left (fun d kv => dict_set d (fst kv) (snd kv)) pairs d = (d ++ pairs)%list.
Proof.
  induction pairs as [|[k v] pairs IH]; intros d Hnodup; simpl.
  - now rewrite app_nil_r.
  - simpl in Hnodup.
    assert (Hnew : ~ In k (keys d)).
    { apply NoDup_remove_2 in Hnodup. intros Hin. apply Hnodup.
      apply in_or_app. now left. }
    rewrite (dict_set_new d k v Hnew), IH.
    + now rewrite <- app_assoc.
    + unfold keys. rewrite map_app, <- app_assoc. exact Hnodup.
Qed.

(** With distinct names, [dict(zip(names, values))] is the list of the
    pairs, in order. *)
Lemma dict_of_zip {V : Type} : forall (names : list string) (values : list V),
  NoDup names -> length values = length names ->
  dict_of_pairs (combine names values) = combine names values.
Proof.
  intros names values Hnodup Hlen. unfold dict_of_pairs.
  apply fold_dict_set_new. simpl.
  replace (map fst (combine names values)) with names; [exact Hnodup|].
  revert values Hlen. induction names as [|n names IH]; intros [|v values] Hlen;
    simpl in *; try discriminate; [reflexivity|].
  f_equal. apply IH; [now inversion Hnodup | now injection Hlen].
Qed.

Lemma lookup_of_in {V : Type} : forall (d : list (string * V)) k v,
  NoDup (keys d) -> In (k, v) d -> lookup k d = Some v.
Proof.
  induction d as [|[k0 v0] d IH]; intros k v Hnodup Hin; [destruct Hin|].
  simpl in *. inversion Hnodup as [|x xs Hnotin Hrest]; subst.
  destruct Hin as [Heq|Hin].
  - injection Heq as -> ->. now rewrite String.eqb_refl.
  - destruct (String.eqb_spec k0 k) as [->|Hne]; [|now apply IH].
    exfalso. apply Hnotin. change k with (fst (k, v)). now apply in_map.
Qed.

(** The entries of a snapshot, against the registry: same names in the same
    order, each with the value its own task returned. *)
Lemma snapshot_entries : forall hdrs net out snapshot,
  get_versions_async hdrs net = (out, Ok snapshot) ->
  Forall2 (fun src entry =>
             fst entry = fst src
             /\ exists task,
                  task_of {| client_headers := hdrs; network := net |} (snd src) = Some task
                  /\ outcome task = Ok (snd entry))
          sources snapshot.
Proof.
  intros hdrs net out snapshot H. unfold get_versions_async in H.
  set (client := {| client_headers := hdrs; network := net |}) in *.
  destruct (gather (tasks_of client sources)) as [o [results|e]] eqn:Hg;
    unfold bind, ret in H; [|discriminate].
  remember (dict_of_pairs (combine (keys sources) results)) as d eqn:Hd.
  injection H as _ <-. subst d.
  pose proof (gather_length _ _ _ Hg) as Hlen.
  rewrite dict_of_zip;
    [|exact sources_distinct | rewrite Hlen; apply one_task_per_source].
  apply gather_outcomes in Hg.
  assert (Hgen : forall entries values,
             Forall (fun e => task_of client (snd e) <> None) entries ->
             Forall2 (fun t x => outcome t = Ok x) (tasks_of client entries) values ->
             Forall2 (fun src entry =>
                        fst entry = fst src
                        /\ exists task, task_of client (snd src) = Some task
                                        /\ outcome task = Ok (snd entry))
                     entries (combine (keys entries) values)).
  { induction entries as [|[name data] entries IH]; intros values Hall Hf2.
    - constructor.
    - inversion Hall as [|x xs Hsome Hrest]; subst. cbn [snd] in Hsome.
      cbn [tasks_of] in Hf2.
      destruct (task_of client data) as [task|] eqn:Htask; [|contradiction].
      inversion Hf2 as [|t v ts vs Hv Hvs]; subst.
      cbn [keys map fst combine]. constructor.
      + split; [reflexivity|]. exists task. split; [exact Htask | exact Hv].
      + apply IH; assumption. }
  apply Hgen; [|exact Hg].
  repeat (constructor; [discriminate|]). constructor.
Qed.

Lemma forall2_in_left {A B : Type} (R : A -> B -> Prop) : forall xs ys x,
  Forall2 R xs ys -> In x xs -> exists y, In y ys /\ R x y.
Proof.
  intros xs ys x H. induction H as [|a b xs ys Hab Hrest IH]; intros Hin; [destruct Hin|].
  destruct Hin as [<-|Hin].
  - exists b. split; [now left | exact Hab].
  - destruct (IH Hin) as (y & Hy & Hr). exists y. split; [now right | exact Hr].
Qed.

(** The task of a registry entry sends one request, and is the same task
    over two networks that reply alike to that request. *)
Lemma task_depends_on_its_reply : forall hdrs net net' data u,
  source_url data = Some u ->
  net {| url := u; headers := hdrs; timeout := 10 |}
  = net' {| url := u; headers := hdrs; timeout := 10 |} ->
  task_of {| client_headers := hdrs; network := net |} data
  = task_of {| client_headers := hdrs; network := net' |} data.
Proof.
  intros hdrs net net' data u Hu Hsame. unfold source_url in Hu. unfold task_of.
  destruct (String.eqb (source_type data) "github").
  { injection Hu as <-. f_equal.
    unfold fetch_github_release, client_get, request_of. cbn [client_headers network].
    now rewrite Hsame. }
  destruct (String.eqb (source_type data) "channel").
  { injection Hu as <-. f_equal.
    unfold fetch_channel_version, client_get, request_of. cbn [client_headers network].
    now rewrite Hsame. }
  destruct (String.eqb (source_type data) "dockerhub"); [|discriminate].
  injection Hu as <-. f_equal. unfold call_fetch_dockerhub_tags.
  destruct (source_options data) as [options|].
  - destruct (forallb (fun kv => String.eqb (fst kv) "name_filter") options);
      [|reflexivity].
    unfold fetch_dockerhub_tags, client_get, request_of. cbn [client_headers network].
    now rewrite Hsame.
  - cbn [forallb lookup].
    unfold fetch_dockerhub_tags, client_get, request_of. cbn [client_headers network].
    now rewrite Hsame.
Qed.

(** X9: in a snapshot that the aggregator returns, the entries stand in the
    order of the registry, each under the name of its registry entry and
    holding what the fetcher of that entry returned: no value is shifted to
    another name. *)
Theorem snapshot_pairs_each_name_with_its_fetch : forall hdrs net out snapshot,
  get_versions_async hdrs net = (out, Ok snapshot) ->
  Forall2 (fun src entry =>
             fst entry = fst src
             /\ exists task,
                  task_of {| client_headers := hdrs; network := net |} (snd src) = Some task
                  /\ outcome task = Ok (snd entry))
          sources snapshot
  /\ (forall name data,
         In (name, data) sources ->
         exists task v,
           task_of {| client_headers := hdrs; network := net |} data = Some task
           /\ outcome task = Ok v
           /\ lookup name snapshot = Some v).
Proof.
  intros hdrs net out snapshot H.
  pose proof (snapshot_entries _ _ _ _ H) as Hall.
  split; [exact Hall|].
  intros name data Hin.
  destruct (forall2_in_left _ _ _ _ Hall Hin) as ([k v] & Hentry & Hname & task & Htask & Hv).
  cbn [fst snd] in *. subst k.
  exists task, v. repeat split; [exact Htask | exact Hv|].
  apply lookup_of_in; [|exact Hentry].
  rewrite (aggregate_keys _ _ _ _ H). exact sources_distinct.
Qed.

(** X9 on a cycle in which only the channel servers answer. *)
Lemma snapshot_example :
  exists task v,
    task_of {| client_headers := [];
               network := fun r =>
                            if String.prefix "https://update." (url r)
                            then Reply 200 (Some catch_all_body) else Reply 404 None |}
            (source "channel" "k3s") = Some task
    /\ outcome task = Ok v
    /\ lookup "k3s-stable"
         (match outcome (get_versions_async []
                           (fun r => if String.prefix "https://update." (url r)
                                     then Reply 200 (Some catch_all_body)
                                     else Reply 404 None)) with
          | Ok snapshot => snapshot
          | Raise _ => []
          end) = Some v.
Proof.
  refine (proj2 (snapshot_pairs_each_name_with_its_fetch [] _ _ _ _)
            "k3s-stable" (source "channel" "k3s") _).
  - vm_compute. reflexivity.
  - simpl. tauto.
Defined.

(** X10: the aggregator returns a snapshot exactly when every one of its
    eleven fetches returns; one fetch that raises makes the whole
    aggregation raise, and then no snapshot comes out of the cycle. *)
Theorem aggregation_returns_iff_every_fetch_returns : forall hdrs net,
  ((exists out snapshot, get_versions_async hdrs net = (out, Ok snapshot))
   <-> Forall (fun task => exists v, outcome task = Ok v)
              (tasks_of {| client_headers := hdrs; network := net |} sources))
  /\ ((exists e, outcome (get_versions_async hdrs net) = Raise e)
      <-> Exists (fun task => exists e, outcome task = Raise e)
                 (tasks_of {| client_headers := hdrs; network := net |} sources)).
Proof.
  intros hdrs net.
  set (client := {| client_headers := hdrs; network := net |}).
  assert (Hreturns : (exists out snapshot, get_versions_async hdrs net = (out, Ok snapshot))
                     <-> Forall (fun task => exists v, outcome task = Ok v)
                                (tasks_of client sources)).
  { rewrite <- gather_returns_iff. unfold get_versions_async. fold client. split.
    - intros (out & snapshot & H).
      destruct (gather (tasks_of client sources)) as [o [xs|e]];
        unfold bind, ret in H; [eauto | discriminate].
    - intros (o & xs & Hg). rewrite Hg. unfold bind, ret. eauto. }
  split; [exact Hreturns|].
  split.
  - intros [e He].
    assert (Hnot : ~ Forall (fun task => exists v, outcome task = Ok v)
                            (tasks_of client sources)).
    { intros Hall. apply Hreturns in Hall. destruct Hall as (out & snapshot & H).
      rewrite H in He. discriminate He. }
    apply neg_Forall_Exists_neg in Hnot.
    + eapply Exists_impl; [|exact Hnot].
      intros [o [v|e']] Hno; [exfalso; apply Hno; exists v; reflexivity|].
      exists e'. reflexivity.
    + intros [o [v|e']]; [left; exists v; reflexivity|].
      right. intros [v Hv]. discriminate Hv.
  - intros Hex.
    destruct (get_versions_async hdrs net) as [out [snapshot|e]] eqn:H;
      [|exists e; reflexivity].
    exfalso.
    assert (Hall : Forall (fun task => exists v, outcome task = Ok v)
                          (tasks_of client sources))
      by (apply Hreturns; eauto).
    rewrite Forall_forall in Hall. apply Exists_exists in Hex.
    destruct Hex as (task & Hin & e & He). destruct (Hall task Hin) as [v Hv].
    rewrite Hv in He. discriminate He.
Qed.

(** X11: the value a snapshot holds for a source depends on the network
    through the reply to that source's own request only: two cycles that
    both return, over networks that reply alike to the request of one
    source, hold the same value for it, whatever the other servers did. *)
Theorem entry_depends_on_its_own_reply :
  forall hdrs net net' out out' snapshot snapshot' name data u,
    get_versions_async hdrs net = (out, Ok snapshot) ->
    get_versions_async hdrs net' = (out', Ok snapshot') ->
    In (name, data) sources ->
    source_url data = Some u ->
    net {| url := u; headers := hdrs; timeout := 10 |}
    = net' {| url := u; headers := hdrs; timeout := 10 |} ->
    lookup name snapshot = lookup name snapshot'.
Proof.
  intros hdrs net net' out out' snapshot snapshot' name data u H H' Hin Hu Hsame.
  assert (Hentry : forall n o s,
             get_versions_async hdrs n = (o, Ok s) ->
             exists task v,
               task_of {| client_headers := hdrs; network := n |} data = Some task
               /\ outcome task = Ok v /\ lookup name s = Some v).
  { intros n o s Hn.
    destruct (forall2_in_left _ _ _ _ (snapshot_entries _ _ _ _ Hn) Hin)
      as ([k v] & Hentry & Hname & task & Htask & Hv).
    cbn [fst snd] in *. subst k. exists task, v. repeat split; try assumption.
    apply lookup_of_in; [|exact Hentry].
    rewrite (aggregate_keys _ _ _ _ Hn). exact sources_distinct. }
  destruct (Hentry _ _ _ H) as (task & v & Htask & Hv & Hlook).
  destruct (Hentry _ _ _ H') as (task' & v' & Htask' & Hv' & Hlook').
  rewrite (task_depends_on_its_reply hdrs net net' data u Hu Hsame) in Htask.
  rewrite Htask in Htask'. injection Htask' as <-.
  rewrite Hv in Hv'. injection Hv' as <-.
  now rewrite Hlook, Hlook'.
Qed.

(** X11 on two cycles that differ in every reply but the one to the k3s
    channel request. *)
Lemma entry_isolation_example :
  lookup "k3s-stable"
    (match outcome (get_versions_async [] k3s_only) with
     | Ok snapshot => snapshot
     | Raise _ => []
     end)
  = lookup "k3s-stable"
      (match outcome (get_versions_async [] (fun _ => Reply 200 (Some catch_all_body))) with
       | Ok snapshot => snapshot
       | Raise _ => []
       end).
Proof.
  apply (entry_depends_on_its_own_reply [] k3s_only (fun _ => Reply 200 (Some catch_all_body))
           (emitted (get_versions_async [] k3s_only))
           (emitted (get_versions_async [] (fun _ => Reply 200 (Some catch_all_body))))
           _ _ "k3s-stable" (source "channel" "k3s") (channel_url "k3s")).
  - vm_compute. reflexivity.
  - vm_compute. reflexivity.
  - simpl. tauto.
  - reflexivity.
  - reflexivity.
Defined.

(** ** Runs of the refresh loop *)

(** X12: after any number of turns of the loop, [version_cache] is the
    snapshot of the most recent cycle whose aggregation returned, and what
    it was before the loop if none did. *)
Theorem cache_is_latest_returned_snapshot : forall hdrs interval nets st,
  version_cache (refresh_versions hdrs interval nets st)
  = match latest_snapshot hdrs nets with
    | Some snapshot => snapshot
    | None => version_cache st
    end.
Proof.
  intros hdrs interval nets. induction nets as [|net later IH]; intros st.
  - reflexivity.
  - cbn [refresh_versions latest_snapshot]. rewrite IH.
    destruct (latest_snapshot hdrs later); [reflexivity|].
    rewrite refresh_cycle_cache.
    destruct (outcome (get_versions_async hdrs net)); reflexivity.
Qed.

(** ** What readers can see *)

Lemma cache_is_empty_or_full : forall hdrs interval evs p,
  run hdrs interval started evs p ->
  version_cache (app p) = [] \/ keys (version_cache (app p)) = keys sources.
Proof.
  intros hdrs interval evs p Hrun.
  remember started as p0 eqn:Hstart.
  induction Hrun as [p0|p0 evs q ev r Hrun IH Hstep].
  - subst p0. now left.
  - specialize (IH Hstart).
    destruct Hstep as [q net Halive | q net out snapshot Hmain Hagg
                      | q net out e Hmain Hagg | q Hmain | q Hmain];
      cbn [app version_cache json_all_the_things curl_all_the_things snd].
    + rewrite refresh_cycle_cache.
      destruct (get_versions_async hdrs net) as [o [s|e]] eqn:Hagg; cbn [outcome snd].
      * right. exact (aggregate_keys _ _ _ _ Hagg).
      * exact IH.
    + right. exact (aggregate_keys _ _ _ _ Hagg).
    + exact IH.
    + exact IH.
    + exact IH.
Qed.

(** X13: at every moment of every run of the process, [version_cache] is
    either the empty mapping of the start or a mapping with every
    registered name: no state holds some of the names only.  What the JSON
    route hands out, being served after the warm-up, always has every name,
    with status 200. *)
Theorem readers_never_see_a_partial_snapshot : forall hdrs interval evs p,
  run hdrs interval started evs p ->
  (version_cache (app p) = [] \/ keys (version_cache (app p)) = keys sources)
  /\ (forall payload q,
         step hdrs interval p (GetJson payload) q ->
         keys (fst payload) = keys sources /\ snd payload = 200%Z).
Proof.
  intros hdrs interval evs p Hrun.
  split; [exact (cache_is_empty_or_full _ _ _ _ Hrun)|].
  intros payload q Hstep.
  inversion Hstep as [| | |p' Hmain Hpayload Hq|]; subst.
  destruct (serving_invariant _ _ _ _ Hrun Hmain) as [Hkeys _].
  split; [exact Hkeys | reflexivity].
Qed.

(** X13 on a process that was warmed up offline and then hit by a garbled
    background cycle. *)
Lemma readers_example :
  (version_cache (refresh_cycle [] 1800 garbled (app warmed_up_offline)) = []
   \/ keys (version_cache (refresh_cycle [] 1800 garbled (app warmed_up_offline)))
      = keys sources).
Proof.
  refine (proj1 (readers_never_see_a_partial_snapshot [] 1800%Z
                   [WarmUp unreachable; BackgroundTurn garbled]
                   {| app := refresh_cycle [] 1800 garbled (app warmed_up_offline);
                      main_thread := Serving |} _)).
  apply (run_then [] 1800%Z started [WarmUp unreachable] warmed_up_offline
           (BackgroundTurn garbled)).
  - apply (run_then [] 1800%Z started [] started (WarmUp unreachable) warmed_up_offline
             (run_done [] 1800%Z started)).
    apply (step_warm_up [] 1800%Z started unreachable
             (emitted (get_versions_async [] unreachable))
             (version_cache (app warmed_up_offline))); reflexivity.
  - apply (step_background [] 1800%Z warmed_up_offline garbled). discriminate.
Defined.

(** ** The status page *)

(** X14: the page always has the same eleven fields; each shows the cached
    value of its key and [loading...] when the key is missing from the
    cache; every registered source is shown by exactly one field; and
    drawing the page changes nothing. *)
Theorem page_shows_cache_or_loading : forall st,
  map fst (fst (curl_all_the_things st)) = map fst page_fields
  /\ (forall var key,
         In (var, key) page_fields ->
         lookup var (fst (curl_all_the_things st))
         = Some match lookup key (version_cache st) with
                | Some v => v
                | None => PStr "loading..."
                end)
  /\ Permutation (map snd page_fields) (keys sources)
  /\ snd (curl_all_the_things st) = st.
Proof.
  intros st. split; [reflexivity|]. split; [|split; [|reflexivity]].
  - intros var key Hin. unfold curl_all_the_things, cache_get. cbn [fst].
    simpl in Hin.
    repeat (destruct Hin as [Hin|Hin]; [injection Hin as <- <-; reflexivity|]).
    contradiction.
  - apply NoDup_Permutation.
    + repeat (constructor; [simpl; intuition discriminate|]). constructor.
    + exact sources_distinct.
    + intros k. simpl. intuition.
Qed.

(** X14 before anything was cached. *)
Lemma empty_page_example :
  lookup "stork_ver" (fst (curl_all_the_things initial_state)) = Some (PStr "loading...").
Proof.
  apply (proj1 (proj2 (page_shows_cache_or_loading initial_state)) "stork_ver" "stork").
  simpl. tauto.
Defined.

(** ** The pace of the refresh loop *)

Lemma task_effects : forall client data task,
  task_of client data = Some task ->
  Forall (fun e => loop_effect e = false) (emitted task).
Proof.
  intros client data task H. unfold task_of in H.
  destruct (String.eqb (source_type data) "github").
  { injection H as <-.
    destruct (github_cases client (identifier data))
      as [(e & _ & Hf)|[(e & _ & Hf)|[Hf|(v & _ & Hf)]]]; rewrite Hf;
      repeat constructor. }
  destruct (String.eqb (source_type data) "channel").
  { injection H as <-.
    destruct (channel_cases client (identifier data)) as [(e & _ & Hf)|[Hf|(latest & Hf)]];
      rewrite Hf; repeat constructor. }
  destruct (String.eqb (source_type data) "dockerhub"); [|discriminate].
  injection H as <-. unfold call_fetch_dockerhub_tags.
  destruct (forallb _ _); [|constructor].
  match goal with
  | |- context [fetch_dockerhub_tags ?c ?r ?f] =>
      destruct (dockerhub_cases c r f) as [(e & _ & Hf)|[(e & _ & Hf)|[Hf|[Hf|Hf]]]];
      [| | | |destruct Hf as (c0 & en & r0 & t & fl & s & _ & _ & _ & _ & _ & _ & _ & Hf)];
      rewrite Hf; repeat constructor
  end.
Qed.

Lemma tasks_effects : forall client entries,
  Forall (fun task => Forall (fun e => loop_effect e = false) (emitted task))
         (tasks_of client entries).
Proof.
  intros client. induction entries as [|[name data] entries IH]; cbn [tasks_of].
  - constructor.
  - destruct (task_of client data) as [task|] eqn:Htask; [|exact IH].
    constructor; [exact (task_effects _ _ _ Htask) | exact IH].
Qed.

Lemma gather_effects {A : Type} (P : effect -> Prop) : forall (tasks : list (Py A)),
  Forall (fun task => Forall P (emitted task)) tasks ->
  Forall P (emitted (gather tasks)).
Proof.
  induction tasks as [|[o [x|e]] tasks IH]; intros H; cbn [gather].
  - constructor.
  - inversion H as [|t ts Ht Hrest]; subst. cbn [emitted fst] in Ht.
    specialize (IH Hrest). unfold bind at 1.
    destruct (gather tasks) as [o' [xs|e']]; cbn in *;
      rewrite ?app_nil_r; apply Forall_app; split; assumption.
  - inversion H as [|t ts Ht Hrest]; subst. exact Ht.
Qed.

(** The aggregator itself announces nothing, concludes nothing and never
    sleeps: its lines are those of the fetchers. *)
Lemma aggregate_effects : forall hdrs net,
  Forall (fun e => loop_effect e = false) (emitted (get_versions_async hdrs net)).
Proof.
  intros hdrs net. unfold get_versions_async.
  set (client := {| client_headers := hdrs; network := net |}).
  pose proof (gather_effects _ _ (tasks_effects client sources)) as H.
  destruct (gather (tasks_of client sources)) as [o [xs|e]]; cbn in *;
    rewrite ?app_nil_r; exact H.
Qed.

Lemma filter_none {A : Type} (p : A -> bool) : forall l,
  Forall (fun x => p x = false) l -> filter p l = [].
Proof.
  induction l as [|x l IH]; intros H; [reflexivity|].
  inversion H as [|y ys Hx Hrest]; subst. simpl. rewrite Hx. now apply IH.
Qed.

Lemma slept_app : forall a b, slept (a ++ b)%list = (slept a + slept b)%Z.
Proof.
  induction a as [|e a IH]; intros b; [reflexivity|].
  destruct e; simpl; rewrite IH; lia.
Qed.

Lemma slept_none : forall l,
  Forall (fun e => is_sleep e = false) l -> slept l = 0%Z.
Proof.
  induction l as [|e l IH]; intros H; [reflexivity|].
  inversion H as [|y ys He Hrest]; subst.
  destruct e; simpl in *; try discriminate; now apply IH.
Qed.

Lemma loop_effect_parts : forall l,
  Forall (fun e => loop_effect e = false) l ->
  Forall (fun e => is_sleep e = false) l
  /\ Forall (fun e => is_announcement e = false) l
  /\ Forall (fun e => is_verdict e = false) l.
Proof.
  intros l H. repeat split; (eapply Forall_impl; [|exact H]); intros e He;
    unfold loop_effect in He; apply orb_false_iff in He; destruct He as [He Hv];
    apply orb_false_iff in He; destruct He as [Hs Ha]; assumption.
Qed.

Lemma one_cycle_pace : forall hdrs interval net st,
  let st' := refresh_cycle hdrs interval net st in
  length (filter is_announcement (trace st')) = S (length (filter is_announcement (trace st)))
  /\ length (filter is_verdict (trace st')) = S (length (filter is_verdict (trace st)))
  /\ length (filter is_sleep (trace st')) = S (length (filter is_sleep (trace st)))
  /\ slept (trace st') = (slept (trace st) + interval)%Z.
Proof.
  intros hdrs interval net st st'. subst st'.
  rewrite refresh_cycle_trace.
  destruct (loop_effect_parts _ (aggregate_effects hdrs net)) as (Hs & Ha & Hv).
  rewrite !filter_app, !length_app, !slept_app.
  rewrite (filter_none _ _ Hs), (filter_none _ _ Ha), (filter_none _ _ Hv),
    (slept_none _ Hs).
  destruct (outcome (get_versions_async hdrs net)); cbn; repeat split; lia.
Qed.

(** X15: a run of [n] turns of the loop announces [n] refreshes, closes each
    with one line, success or error, and sleeps [n] times, [interval]
    seconds each: a failed cycle is neither retried at once nor slept
    twice. *)
Theorem loop_sleeps_once_per_cycle : forall hdrs interval nets st,
  let st' := refresh_versions hdrs interval nets st in
  length (filter is_announcement (trace st'))
  = (length (filter is_announcement (trace st)) + length nets)%nat
  /\ length (filter is_verdict (trace st'))
     = (length (filter is_verdict (trace st)) + length nets)%nat
  /\ length (filter is_sleep (trace st'))
     = (length (filter is_sleep (trace st)) + length nets)%nat
  /\ slept (trace st') = (slept (trace st) + Z.of_nat (length nets) * interval)%Z.
Proof.
  intros hdrs interval nets. induction nets as [|net later IH]; intros st; cbn zeta.
  - cbn [refresh_versions length]. repeat split; lia.
  - cbn [refresh_versions]. specialize (IH (refresh_cycle hdrs interval net st)).
    cbn zeta in IH. destruct IH as (Ha & Hv & Hs & Hz).
    destruct (one_cycle_pace hdrs interval net st) as (Ha1 & Hv1 & Hs1 & Hz1).
    rewrite Ha, Hv, Hs, Hz, Ha1, Hv1, Hs1, Hz1. cbn [length].
    repeat split; lia.
Qed.

(** ** Empty answers *)

(** X16: the release-tag fetcher and the registry-tag fetcher never answer
    with an empty value: whatever they return is truthy, a sentinel or a
    name.  The channel fetcher has no such guard: a version text that starts
    with ['+'] is answered with the empty string. *)
Theorem empty_answers : forall client ident name_filter,
  (forall v, outcome (fetch_github_release client ident) = Ok v -> truthy v = true)
  /\ (forall v, outcome (fetch_dockerhub_tags client ident name_filter) = Ok v ->
                truthy v = true)
  /\ (forall code entries first rest build,
         network client (request_of client (channel_url ident) 10)
         = Reply code (Some (PDict entries)) ->
         is_success code = true ->
         lookup "data" entries = Some (PList (PDict first :: rest)) ->
         lookup "latest" first = Some (PStr (String "+" build)) ->
         fetch_channel_version client ident = ([], Ok (PStr EmptyString))).
Proof.
  intros client ident name_filter. split; [|split].
  - intros v H.
    destruct (github_cases client ident)
      as [(e & _ & Hf)|[(e & _ & Hf)|[Hf|(v0 & Hv0 & Hf)]]];
      rewrite Hf in H; cbn in H; try discriminate H; injection H as <-;
      [reflexivity | reflexivity | exact Hv0].
  - intros v H.
    destruct (dockerhub_cases client ident name_filter)
      as [(e & _ & Hf)|[(e & _ & Hf)|[Hf|[Hf|Hf]]]];
      [| | | |destruct Hf as (c & en & r & t & f & s & _ & _ & _ & _ & _ & _ & Hkept & Hf)];
      rewrite Hf in H; cbn in H; try discriminate H; injection H as <-;
      try reflexivity.
    unfold kept in Hkept. apply andb_prop in Hkept. exact (proj1 Hkept).
  - intros code entries first rest build Hsent Hcode Hdata Hlatest.
    to_reply Hsent. with_status Hcode.
    unfold subscript_str at 1. rewrite Hdata.
    cbn [bind ret subscript_zero subscript_str app]. rewrite Hlatest. reflexivity.
Qed.

(** X16 on a channel whose latest version is written [+k3s1]. *)
Lemma empty_channel_answer :
  fetch_channel_version (always (Reply 200 (Some (channel_body (PStr "+k3s1"))))) "k3s"
  = ([], Ok (PStr EmptyString)).
Proof.
  apply (proj2 (proj2 (empty_answers
                         (always (Reply 200 (Some (channel_body (PStr "+k3s1"))))) "k3s" "3"))
           200%Z [("data", PList [PDict [("latest", PStr "+k3s1")]])]
           [("latest", PStr "+k3s1")] [] "k3s1"); reflexivity.
Defined.

(** ** The requests of a cycle *)

Lemma tasks_depend_on_their_replies : forall hdrs net net' entries,
  (forall name data,
      In (name, data) entries ->
      exists u, source_url data = Some u
                /\ net {| url := u; headers := hdrs; timeout := 10 |}
                   = net' {| url := u; headers := hdrs; timeout := 10 |}) ->
  tasks_of {| client_headers := hdrs; network := net |} entries
  = tasks_of {| client_headers := hdrs; network := net' |} entries.
Proof.
  intros hdrs net net'. induction entries as [|[name data] entries IH]; intros H.
  - reflexivity.
  - cbn [tasks_of].
    destruct (H name data (or_introl eq_refl)) as (u & Hu & Hsame).
    rewrite (task_depends_on_its_reply hdrs net net' data u Hu Hsame).
    rewrite IH; [reflexivity|].
    intros n d Hin. apply (H n d). now right.
Qed.

(** X17: a cycle of the aggregator consults the network through eleven
    requests only, one per registry entry, each to the URL of the entry,
    with the client's headers and a ten-second timeout: two networks that
    reply alike to these give the same result, snapshot or exception, and
    the same log lines. *)
Theorem aggregation_depends_on_eleven_replies : forall hdrs net net',
  (forall name data u,
      In (name, data) sources ->
      source_url data = Some u ->
      net {| url := u; headers := hdrs; timeout := 10 |}
      = net' {| url := u; headers := hdrs; timeout := 10 |}) ->
  get_versions_async hdrs net = get_versions_async hdrs net'.
Proof.
  intros hdrs net net' H. unfold get_versions_async.
  rewrite (tasks_depend_on_their_replies hdrs net net' sources); [reflexivity|].
  intros name data Hin.
  assert (Hurl : exists u, source_url data = Some u).
  { simpl in Hin.
    repeat (destruct Hin as [Hin|Hin]; [injection Hin as <- <-; eexists; reflexivity|]).
    contradiction. }
  destruct Hurl as [u Hu]. exists u. split; [exact Hu | exact (H name data u Hin Hu)].
Qed.

(** X17 on two networks that differ on a URL no fetcher asks for. *)
Lemma aggregation_ignores_other_urls :
  get_versions_async []
    (fun r => if String.eqb (url r) "https://example.org/" then Reply 200 None else NoReply)
  = get_versions_async [] unreachable.
Proof.
  apply aggregation_depends_on_eleven_replies.
  intros name data u Hin Hu. simpl in Hin.
  repeat (destruct Hin as [Hin|Hin];
          [injection Hin as <- <-; injection Hu as <-; reflexivity|]).
  contradiction.
Defined.
